(** * Letterhead merger: the watch / stability / dedup / merge pipeline

    A shallow embedding of [main.py]: the page-overlay merge
    ([merge_letterhead]), the file-stability gate
    ([wait_until_file_ready]), the debounce rule of [InvoiceHandler]
    and the watch-session toggling of [PDFMergerApp].

    Conventions of the model.
    - Time is an integer number of milliseconds: [time.sleep(0.5)] is a
      sleep of 500, [time.sleep(1.5)] of 1500, [DEBOUNCE_SECONDS] is
      10000.  [time.time()] reads the clock of the world; only
      [time.sleep] and the passage of time between callbacks move it.
      Reading and writing files and the dialogs of [messagebox], which
      wait for the user, take no time on this clock: what is proved
      about the clock inside one call is proved about its sleeps.  The
      code compares floating-point seconds where the model compares
      integers; the two agree except within rounding of the boundary
      of a comparison.
    - A path is the string [str(path)] returns (pathlib's normalised
      form, backslash separated).
    - A PDF file is the list of its pages; a page is the list of its
      content streams, so that [page.merge_page(other)] appends the
      content of [other] to the content of [page].
    - Whatever other processes do to the disk (a copy still in progress,
      a viewer holding a file open) is read from an environment [Env],
      indexed by the clock. *)

From Stdlib Require Import ZArith List Ascii String Bool Lia.
From stdpp Require Import base gmap sets list strings.

Local Open Scope Z_scope.

(** ** Paths: the part of pathlib and str the program uses *)

Module Paths.

Definition chars (s : string) : list ascii := String.list_ascii_of_string s.
Definition text (l : list ascii) : string := String.string_of_list_ascii l.

(** [str.lower] on the ASCII letters. *)
Definition lower_char (c : ascii) : ascii :=
  let n := nat_of_ascii c in
  if ((65 <=? n) && (n <=? 90))%nat then ascii_of_nat (n + 32) else c.

Definition lower (s : string) : string := text (map lower_char (chars s)).

Fixpoint starts_with (p l : list ascii) : bool :=
  match p, l with
  | [], _ => true
  | _ :: _, [] => false
  | a :: p', b :: l' => bool_decide (a = b) && starts_with p' l'
  end.

(** [s.endswith(suffix)] *)
Definition endswith (s suffix : string) : bool :=
  starts_with (rev (chars suffix)) (rev (chars s)).

Definition is_sep (c : ascii) : bool :=
  bool_decide (c = "\"%char) || bool_decide (c = "/"%char).

Fixpoint until_sep (l : list ascii) : list ascii :=
  match l with
  | [] => []
  | c :: l' => if is_sep c then [] else c :: until_sep l'
  end.

Fixpoint from_sep (l : list ascii) : list ascii :=
  match l with
  | [] => []
  | c :: l' => if is_sep c then l else from_sep l'
  end.

(** [path.name]: the final component. *)
Definition name_chars (l : list ascii) : list ascii := rev (until_sep (rev l)).
Definition name (p : string) : string := text (name_chars (chars p)).

(** Everything before the final component, its separator included. *)
Definition parent_chars (l : list ascii) : list ascii := rev (from_sep (rev l)).

(** Splitting a name at its last dot ([name.rfind('.')]). *)
Fixpoint split_last_dot (l : list ascii) : option (list ascii * list ascii) :=
  match l with
  | [] => None
  | c :: l' =>
      match split_last_dot l' with
      | Some (before, after) => Some (c :: before, after)
      | None => if bool_decide (c = "."%char) then Some ([], l') else None
      end
  end.

(** [path.stem]: the name without its suffix; the dot counts only when
    it is neither the first nor the last character of the name
    ([0 < i < len(name) - 1]). *)
Definition stem_chars (nm : list ascii) : list ascii :=
  match split_last_dot nm with
  | Some (b :: before, a :: after) => b :: before
  | _ => nm
  end.

(** [path.with_suffix(suffix)]; pathlib raises [ValueError] on a path
    with an empty name, which is [None] here. *)
Definition with_suffix (p suffix : string) : option string :=
  let l := chars p in
  match name_chars l with
  | [] => None
  | nm => Some (text (parent_chars l ++ stem_chars nm ++ chars suffix))
  end.

(** [path.stem] *)
Definition stem (p : string) : string := text (stem_chars (name_chars (chars p))).

(** No separator among the characters. *)
Definition sep_free (l : list ascii) : Prop := Forall (λ c, is_sep c = false) l.

(** [Path(folder) / nm] *)
Definition joinpath (folder nm : string) : string :=
  match rev (chars folder) with
  | [] => nm
  | c :: _ => if is_sep c then folder +:+ nm else folder +:+ "\" +:+ nm
  end.

End Paths.

(** ** Documents *)

Definition Page : Type := list string.
Definition Document : Type := list Page.

(** [page.merge_page(page2)]: the content of [page2] is added after the
    content of [page]. *)
Definition merge_page (page page2 : Page) : Page := page ++ page2.

Inductive file :=
  | PdfFile (pages : Document)
  | OtherFile.

Global Instance file_eq_dec : EqDecision file.
Proof. solve_decision. Defined.

(** ** The environment and the world *)

(** One poll of the stability gate: [exists()] is false ([Missing]);
    [exists()] is true and [stat()] raises [FileNotFoundError]
    ([Vanished]); or [stat().st_size]. *)
Inductive probe :=
  | Missing
  | Vanished
  | Size (n : Z).

Inductive io_result :=
  | IoOk
  | IoPermissionError
  | IoError (msg : string).

(** What the program finds outside itself.
    - [probe_at p t]: one poll of [p] at time [t];
    - [mtime_at p t]: [p.stat().st_mtime] at time [t], [None] for
      [FileNotFoundError];
    - [resolve p]: [str(p.resolve())];
    - [open_at p t]: the outcome of [open(p, "wb")] at time [t]; a
      failure leaves the disk as it is, and once the file is open
      writing the document into it is taken to succeed (a
      [writer.write] that raises, after the file was truncated, is not
      modelled);
    - [replace_at src dst t]: whether [os.replace(src, dst)] is let
      through at time [t];
    - [read_error_text p]: the text of the exception [PdfReader] raises
      on a file it cannot read.
    Errors of [exists()] and [stat()] other than a missing file are not
    modelled. *)
Record Env := {
  probe_at : string → Z → probe;
  mtime_at : string → Z → option Z;
  resolve : string → string;
  open_at : string → Z → io_result;
  replace_at : string → string → Z → io_result;
  read_error_text : string → string;
}.

Inductive effect :=
  | Slept (ms : Z)
  | Wrote (p : string) (d : Document)
  | Replaced (src dst : string)
  | Logged (m : string)
  | Notified (title m : string)
  | InfoBox (title m : string)
  | ErrorBox (title m : string).

Global Instance effect_eq_dec : EqDecision effect.
Proof. solve_decision. Defined.

(** [fs] maps the path of each existing file to its content;
    [processed_files] is the module-level set of [main.py]; [trace]
    lists the effects performed so far, the most recent first. *)
Record World := {
  clock : Z;
  fs : gmap string file;
  processed_files : gset string;
  trace : list effect;
}.

Definition emit (e : effect) (w : World) : World :=
  {| clock := clock w; fs := fs w;
     processed_files := processed_files w; trace := e :: trace w |}.

Definition sleep (ms : Z) (w : World) : World :=
  {| clock := clock w + ms; fs := fs w;
     processed_files := processed_files w; trace := Slept ms :: trace w |}.

Definition set_fs (m : gmap string file) (w : World) : World :=
  {| clock := clock w; fs := m;
     processed_files := processed_files w; trace := trace w |}.

Definition add_processed (p : string) (w : World) : World :=
  {| clock := clock w; fs := fs w;
     processed_files := {[p]} ∪ processed_files w; trace := trace w |}.

Definition log_message (m : string) (w : World) : World := emit (Logged m) w.
Definition notify (title m : string) (w : World) : World := emit (Notified title m) w.

Definition DEBOUNCE_SECONDS : Z := 10000.

Definition newline : string := String "010"%char "".

(** ** The merge operation *)

Inductive merge_error :=
  | ReadError (msg : string)
  | InvalidLetterhead
  | EmptyName
  | OsError (msg : string)
  | SaveRetriesExhausted.

Global Instance merge_error_eq_dec : EqDecision merge_error.
Proof. solve_decision. Defined.

(** [str(e)] of the exception. *)
Definition error_text (e : merge_error) : string :=
  match e with
  | ReadError m => m
  | InvalidLetterhead => "Letterhead PDF must have exactly one page."
  | EmptyName => "path has an empty name"  (* pathlib: "<repr> has an empty name" *)
  | OsError m => m
  | SaveRetriesExhausted => "Could not save file after multiple retries."
  end.

(** Lines 135-143: the page-count check and the overlay loop.  The loop
    calls [merge_page] on each page object of the invoice once and never
    on [header_page], so the pages the writer receives are the invoice's
    pages, in order, each with the header's content added. *)
Definition merge_pages (invoice letterhead : Document) : merge_error + Document :=
  if negb (length letterhead =? 1)%nat then inl InvalidLetterhead
  else
    let header_page := nth 0 letterhead [] in
    inr (map (λ page, merge_page page header_page) invoice).

(** [os.replace(src, dst)] on the file map; [None] when [src] does not
    exist ([FileNotFoundError]). *)
Definition os_replace (src dst : string) (m : gmap string file)
    : option (gmap string file) :=
  match m !! src with
  | Some f => Some (<[dst:=f]> (delete src m))
  | None => None
  end.

Section Program.

Variable env : Env.

(** [PdfReader(str(p))] *)
Definition PdfReader (p : string) (w : World) : merge_error + Document :=
  match fs w !! p with
  | Some (PdfFile d) => inr d
  | _ => inl (ReadError (read_error_text env p))
  end.

(** Lines 149-165: the write-and-commit loop.  The result is the
    exception that leaves the loop, if any. *)
Fixpoint save_loop (attempts : nat) (writer : Document)
    (temp_path invoice_path : string) (output_path : option string)
    (w : World) : option merge_error * World :=
  match attempts with
  | O => (Some SaveRetriesExhausted, w)
  | S attempts' =>
      match open_at env temp_path (clock w) with
      | IoPermissionError =>
          save_loop attempts' writer temp_path invoice_path output_path
            (sleep 1500 w)
      | IoError m => (Some (OsError m), w)
      | IoOk =>
          let w1 :=
            emit (Wrote temp_path writer)
              (set_fs (<[temp_path:=PdfFile writer]> (fs w)) w) in
          match output_path with
          | None =>
              match replace_at env temp_path invoice_path (clock w1) with
              | IoPermissionError =>
                  save_loop attempts' writer temp_path invoice_path
                    output_path (sleep 1500 w1)
              | IoError m => (Some (OsError m), w1)
              | IoOk =>
                  match os_replace temp_path invoice_path (fs w1) with
                  | None => (Some (OsError "file not found"), w1)
                  | Some m =>
                      let msg := "Merged: " +:+ Paths.name invoice_path in
                      (None,
                       notify "Merge Complete" msg
                         (log_message ("[✓] " +:+ msg)
                            (emit (Replaced temp_path invoice_path)
                               (set_fs m w1))))
                  end
              end
          | Some _ =>
              let msg := "Merged file saved:" +:+ newline +:+ temp_path in
              (None,
               emit (InfoBox "Success" msg)
                 (log_message
                    ("[✓] Manual Merge Saved: " +:+ Paths.name temp_path) w1))
          end
      end
  end.

(** Lines 133-165, inside the [try]. *)
Definition merge_body (invoice_path letterhead_path : string)
    (output_path : option string) (retries : nat) (w : World)
    : option merge_error * World :=
  match PdfReader invoice_path w with
  | inl e => (Some e, w)
  | inr invoice =>
      match PdfReader letterhead_path w with
      | inl e => (Some e, w)
      | inr letterhead =>
          match merge_pages invoice letterhead with
          | inl e => (Some e, w)
          | inr writer =>
              let temp :=
                match output_path with
                | Some out => Some out
                | None => Paths.with_suffix invoice_path ".merged.pdf"
                end in
              match temp with
              | None => (Some EmptyName, w)
              | Some temp_path =>
                  save_loop retries writer temp_path invoice_path
                    output_path w
              end
          end
      end
  end.

(** The [except Exception] handler, lines 166-171. *)
Definition report_failure (invoice_path : string)
    (output_path : option string) (e : merge_error) (w : World) : World :=
  let error_msg :=
    "Merge failed for " +:+ Paths.name invoice_path +:+ ": "
      +:+ error_text e in
  let w1 := log_message ("[✗] " +:+ error_msg)
              (notify "Merge Failed" error_msg w) in
  match output_path with
  | Some _ => emit (ErrorBox "Merge Error" (error_text e)) w1
  | None => w1
  end.

Definition merge_letterhead (invoice_path letterhead_path : string)
    (output_path : option string) (retries : nat) (w : World) : World :=
  if Paths.endswith (Paths.name invoice_path) ".merged.pdf" then w
  else if bool_decide (invoice_path ∈ processed_files w) then w
  else
    let w1 := add_processed invoice_path w in
    match merge_body invoice_path letterhead_path output_path retries w1 with
    | (None, w2) => w2
    | (Some e, w2) => report_failure invoice_path output_path e w2
    end.

(** ** The stability gate *)

Fixpoint wait_loop (polls : nat) (file_path : string) (last_size : Z)
    (w : World) : bool * World :=
  match polls with
  | O => (false, w)
  | S polls' =>
      match probe_at env file_path (clock w) with
      | Missing => wait_loop polls' file_path last_size (sleep 500 w)
      | Vanished => (false, w)
      | Size current_size =>
          if (current_size =? last_size) && (0 <? current_size)
          then (true, w)
          else wait_loop polls' file_path current_size (sleep 500 w)
      end
  end.

Definition wait_until_file_ready (file_path : string) (timeout : Z)
    (w : World) : bool * World :=
  wait_loop (Z.to_nat (timeout * 2)) file_path (-1) w.

(** ** InvoiceHandler *)

(** [last_processed] is the handler's own [self.processed_files], the
    [defaultdict(float)] of last-processed times, not the module-level
    set of the same name. *)
Record InvoiceHandler := {
  letterhead_path : string;
  last_processed : gmap string Z;
  start_time : Z;
}.

Record FsEvent := {
  is_directory : bool;
  src_path : string;
}.

(** [InvoiceHandler(app, letterhead_path)] *)
Definition new_handler (lh : string) (w : World) : InvoiceHandler :=
  {| letterhead_path := lh; last_processed := ∅; start_time := clock w |}.

Definition _should_process (h : InvoiceHandler) (file_path : string)
    (w : World) : bool * InvoiceHandler :=
  let now := clock w in
  match mtime_at env file_path now with
  | None => (false, h)
  | Some mtime =>
      if mtime <? start_time h then (false, h)
      else
        let file_key := resolve env file_path in
        if now - default 0 (last_processed h !! file_key) <? DEBOUNCE_SECONDS
        then (false, h)
        else
          (true,
           {| letterhead_path := letterhead_path h;
              last_processed := <[file_key:=now]> (last_processed h);
              start_time := start_time h |})
  end.

Definition _handle_pdf (h : InvoiceHandler) (file_path : string)
    (w : World) : World :=
  match wait_until_file_ready file_path 10 w with
  | (false, w1) =>
      log_message ("[!] File never stabilized: " +:+ Paths.name file_path) w1
  | (true, w1) => merge_letterhead file_path (letterhead_path h) None 3 w1
  end.

(** The filter of [_process_event]: [true] when the event is dropped. *)
Definition filtered_out (event : FsEvent) : bool :=
  is_directory event
  || negb (Paths.endswith (Paths.lower (src_path event)) ".pdf")
  || Paths.endswith (Paths.lower (src_path event)) ".merged.pdf".

Definition _process_event (h : InvoiceHandler) (event : FsEvent)
    (w : World) : InvoiceHandler * World :=
  if filtered_out event then (h, w)
  else
    let file_path := src_path event in
    match _should_process h file_path w with
    | (true, h1) => (h1, _handle_pdf h1 file_path w)
    | (false, h1) => (h1, w)
    end.


(** ** PDFMergerApp: watching, manual and batch merges *)

(** [app_letterhead] is [self.letterhead_path], [observer] the running
    observer with the handler scheduled on it.  [observer.start()] is
    taken to succeed, so that an observer that is set is alive; saving
    the configuration is left out. *)

Record PDFMergerApp := {
  app_letterhead : string;
  watch_folder : string;
  observer : option InvoiceHandler;
}.

Definition toggle_watch (a : PDFMergerApp) (w : World) : PDFMergerApp * World :=
  match observer a with
  | Some _ =>
      ({| app_letterhead := app_letterhead a;
          watch_folder := watch_folder a; observer := None |},
       log_message "[~] Folder watching stopped." w)
  | None =>
      if bool_decide (app_letterhead a = "")
         || bool_decide (watch_folder a = "")
      then
        (a,
         emit
           (ErrorBox "Error"
              "Please select both a Letterhead PDF and a Watch Folder first.")
           w)
      else
        ({| app_letterhead := app_letterhead a;
            watch_folder := watch_folder a;
            observer := Some (new_handler (app_letterhead a) w) |},
         log_message
           ("[+] Started watching folder: " +:+ watch_folder a) w)
  end.

(** The two file dialogs answer [input_pdf] and [output_pdf]; the empty
    string is a cancelled dialog. *)
Definition manual_merge (a : PDFMergerApp) (input_pdf output_pdf : string)
    (w : World) : World :=
  if bool_decide (app_letterhead a = "") then
    emit (ErrorBox "Error" "Please select a Letterhead PDF first.") w
  else if bool_decide (input_pdf = "") then w
  else if bool_decide (output_pdf = "") then w
  else merge_letterhead input_pdf (app_letterhead a) (Some output_pdf) 3 w.

(** The output path batch mode gives a source. *)
Definition batch_out_path (output_folder file_path : string) : option string :=
  match Paths.with_suffix file_path ".merged.pdf" with
  | Some p => Some (Paths.joinpath output_folder (Paths.name p))
  | None => None
  end.

(** The loop of [batch_merge]; the [ValueError] of [with_suffix] is not
    caught there and ends the loop. *)
Fixpoint batch_loop (a : PDFMergerApp) (output_folder : string) (files : list string)
    (w : World) : World :=
  match files with
  | [] => w
  | file_path :: rest =>
      match batch_out_path output_folder file_path with
      | None => w
      | Some out_path =>
          batch_loop a output_folder rest
            (merge_letterhead file_path (app_letterhead a) (Some out_path) 3 w)
      end
  end.

Definition batch_merge (a : PDFMergerApp) (files : list string)
    (output_folder : string) (w : World) : World :=
  if bool_decide (app_letterhead a = "") then
    emit (ErrorBox "Error" "Please select a Letterhead PDF first.") w
  else if bool_decide (files = []) then w
  else if bool_decide (output_folder = "") then w
  else batch_loop a output_folder files w.

End Program.

(** ** Runs of the application *)

Record System := {
  app : PDFMergerApp;
  world : World;
}.

(** What can happen between two callbacks: time passes, another process
    changes the disk, watchdog delivers an event, the user acts. *)
Inductive action :=
  | Elapse (dt : Z)
  | DiskChange (p : string) (f : option file)
  | Created (event : FsEvent)
  | Modified (event : FsEvent)
  | ToggleWatch
  | SelectLetterhead (p : string)
  | SelectFolder (p : string)
  | ManualMerge (input_pdf output_pdf : string)
  | BatchMerge (files : list string) (output_folder : string).

Definition elapse (dt : Z) (w : World) : World :=
  {| clock := clock w + dt; fs := fs w;
     processed_files := processed_files w; trace := trace w |}.

Definition deliver (env : Env) (event : FsEvent) (s : System) : System :=
  match observer (app s) with
  | None => s
  | Some h =>
      let '(h1, w1) := _process_event env h event (world s) in
      {| app := {| app_letterhead := app_letterhead (app s);
                   watch_folder := watch_folder (app s);
                   observer := Some h1 |};
         world := w1 |}
  end.

Definition do_toggle (s : System) : System :=
  let '(a, w) := toggle_watch (app s) (world s) in {| app := a; world := w |}.

Definition select_letterhead (p : string) (s : System) : System :=
  if bool_decide (p = "") then s
  else
    {| app := {| app_letterhead := p; watch_folder := watch_folder (app s);
                 observer := observer (app s) |};
       world := world s |}.

Definition select_folder (p : string) (s : System) : System :=
  if bool_decide (p = "") then s
  else
    let s1 :=
      {| app := {| app_letterhead := app_letterhead (app s);
                   watch_folder := p; observer := observer (app s) |};
         world := world s |} in
    match observer (app s) with
    | Some _ => do_toggle (do_toggle s1)
    | None => s1
    end.

Definition step (env : Env) (s : System) (a : action) : System :=
  match a with
  | Elapse dt => {| app := app s; world := elapse dt (world s) |}
  | DiskChange p f =>
      {| app := app s;
         world := set_fs (match f with
                          | Some c => <[p:=c]> (fs (world s))
                          | None => delete p (fs (world s))
                          end) (world s) |}
  | Created event => deliver env event s
  | Modified event => deliver env event s
  | ToggleWatch => do_toggle s
  | SelectLetterhead p => select_letterhead p s
  | SelectFolder p => select_folder p s
  | ManualMerge i o =>
      {| app := app s; world := manual_merge env (app s) i o (world s) |}
  | BatchMerge files folder =>
      {| app := app s; world := batch_merge env (app s) files folder (world s) |}
  end.

Definition run (env : Env) (actions : list action) (s : System) : System :=
  fold_left (step env) actions s.

(** The start of the process: the module-level [processed_files = set()]
    and [PDFMergerApp.__init__], which starts watching when the saved
    configuration names both a letterhead and a folder. *)
Definition boot (letterhead folder : string) (now : Z)
    (disk : gmap string file) : System :=
  let s :=
    {| app := {| app_letterhead := letterhead; watch_folder := folder;
                 observer := None |};
       world := {| clock := now; fs := disk; processed_files := ∅;
                   trace := [] |} |} in
  if bool_decide (letterhead ≠ "") && bool_decide (folder ≠ "")
  then do_toggle s else s.

(** ** Reading the trace *)

(** The paths replaced in place, the most recent first. *)
Fixpoint replaced_in_place (tr : list effect) : list string :=
  match tr with
  | [] => []
  | Replaced _ dst :: tr' => dst :: replaced_in_place tr'
  | _ :: tr' => replaced_in_place tr'
  end.

(** The sleeps, the most recent first. *)
Fixpoint sleeps (tr : list effect) : list Z :=
  match tr with
  | [] => []
  | Slept ms :: tr' => ms :: sleeps tr'
  | _ :: tr' => sleeps tr'
  end.

(** The probes of [n] polls half a second apart, starting at [t0]. *)
Definition polled (env : Env) (p : string) (t0 : Z) (n : nat) : list probe :=
  map (λ i : nat, probe_at env p (t0 + 500 * Z.of_nat i)) (seq 0 n).

(** The sizes the gate reads from a sequence of probes: a poll that
    finds no file reads none, and nothing is read after a [stat()] that
    raised. *)
Fixpoint observed_sizes (l : list probe) : list Z :=
  match l with
  | [] => []
  | Missing :: l' => observed_sizes l'
  | Vanished :: _ => []
  | Size n :: l' => n :: observed_sizes l'
  end.

Fixpoint has_stable_pair (l : list Z) : bool :=
  match l with
  | a :: (b :: _) as l' => ((b =? a) && (0 <? b)) || has_stable_pair l'
  | _ => false
  end.

(** The outcome of one write-and-commit attempt made at time [t]. *)
Definition attempt_result (env : Env) (temp_path invoice_path : string)
    (output_path : option string) (t : Z) : io_result :=
  match open_at env temp_path t with
  | IoOk =>
      match output_path with
      | None => replace_at env temp_path invoice_path t
      | Some _ => IoOk
      end
  | r => r
  end.

(** The temporary path of a job. *)
Definition temp_of (invoice_path : string) (output_path : option string)
    : option string :=
  match output_path with
  | Some out => Some out
  | None => Paths.with_suffix invoice_path ".merged.pdf"
  end.

(** [w'] is [w] after [k] locked attempts: [k] sleeps of 1.5 s, nothing
    replaced, and no file touched but the temporary path. *)
Definition after_locked_attempts (temp_path : string) (k : nat)
    (w w' : World) : Prop :=
  clock w' = clock w + 1500 * Z.of_nat k
  ∧ sleeps (trace w') = repeat 1500 k ++ sleeps (trace w)
  ∧ replaced_in_place (trace w') = replaced_in_place (trace w)
  ∧ processed_files w' = processed_files w
  ∧ (∀ q, q ≠ temp_path → fs w' !! q = fs w !! q)
  ∧ (∀ e, e ∈ trace w → e ∈ trace w').

(** What one call of the merge operation on [p] does to the processed
    set and to the list of in-place replacements: nothing, or [p] was
    not in the set, enters it, and is replaced at most once. *)
Definition job_step (p : string) (w w' : World) : Prop :=
  (processed_files w' = processed_files w
   ∧ replaced_in_place (trace w') = replaced_in_place (trace w))
  ∨ ((p ∉ processed_files w)
     ∧ processed_files w' = {[p]} ∪ processed_files w
     ∧ (replaced_in_place (trace w') = replaced_in_place (trace w)
        ∨ replaced_in_place (trace w')
          = p :: replaced_in_place (trace w))).

(** [w'] comes after [w]: the processed set has grown, and the paths
    replaced in place since [w] are distinct, were not in the set at
    [w] and are in it at [w']. *)
Definition advances (w w' : World) : Prop :=
  processed_files w ⊆ processed_files w'
  ∧ ∃ new,
      replaced_in_place (trace w') = new ++ replaced_in_place (trace w)
      ∧ NoDup new
      ∧ ∀ p, p ∈ new → (p ∉ processed_files w) ∧ p ∈ processed_files w'.

Definition dedup_invariant (w : World) : Prop :=
  NoDup (replaced_in_place (trace w))
  ∧ ∀ p, p ∈ replaced_in_place (trace w) → p ∈ processed_files w.

(** The pipeline in the order the specification gives it: filter, then
    the stability wait, then the debounce check, then the merge. *)
Definition process_event_gate_first (env : Env) (h : InvoiceHandler)
    (event : FsEvent) (w : World) : InvoiceHandler * World :=
  if filtered_out event then (h, w)
  else
    let file_path := src_path event in
    match wait_until_file_ready env file_path 10 w with
    | (false, w1) =>
        (h, log_message
              ("[!] File never stabilized: " +:+ Paths.name file_path) w1)
    | (true, w1) =>
        match _should_process env h file_path w1 with
        | (true, h1) =>
            (h1, merge_letterhead env file_path (letterhead_path h1) None 3 w1)
        | (false, h1) => (h1, w1)
        end
    end.

(** One handler receiving a list of events, one after the other, as
    watchdog's dispatcher thread calls it. *)
Definition handle_events (env : Env) (events : list FsEvent)
    (h : InvoiceHandler) (w : World) : InvoiceHandler * World :=
  fold_left (λ hw event, _process_event env (fst hw) event (snd hw))
    events (h, w).

(** While an observer runs, the letterhead and the folder are set, and
    the handler has a letterhead. *)
Definition watching_configured (s : System) : Prop :=
  ∀ h, observer (app s) = Some h →
    letterhead_path h ≠ "" ∧ app_letterhead (app s) ≠ ""
    ∧ watch_folder (app s) ≠ "".

(** ** The update check *)

(** The JSON of the release feed, as far as [check_for_updates] reads
    it; a key that is missing is [None] and raises [KeyError] when the
    code indexes it. *)
Record Asset := {
  asset_name : option string;
  browser_download_url : option string;
}.

Record Release := {
  tag_name : option string;
  assets : option (list Asset);
}.

Definition UNSET_REPO : string := "YOUR_USERNAME/YOUR_REPONAME".

(** [s.lstrip("v")] *)
Fixpoint lstrip_v (s : string) : string :=
  match s with
  | String c s' => if bool_decide (c = "v"%char) then lstrip_v s' else s
  | EmptyString => s
  end.

Inductive asset_search :=
  | KeyMissing
  | NoInstaller
  | Installer (url : string).

(** The loop over the assets, lines 516-524: it stops at the first
    asset whose name ends with [.exe]. *)
Fixpoint find_installer (l : list Asset) : asset_search :=
  match l with
  | [] => NoInstaller
  | asset :: rest =>
      match asset_name asset with
      | None => KeyMissing
      | Some nm =>
          if Paths.endswith nm ".exe" then
            match browser_download_url asset with
            | None => KeyMissing
            | Some url => Installer url
            end
          else find_installer rest
      end
  end.

(** [check_for_updates]: the result is the pair handed to
    [prompt_for_update], if any.  [frozen] is [getattr(sys, "frozen",
    False)], [repo] is [GITHUB_REPO], [response] the parsed answer of
    the feed ([None] when the request or its decoding raises), and
    [newer latest current] is [parse_version(latest) >
    parse_version(current)], [None] when a version does not parse.
    Every exception ends the check without a prompt. *)
Definition check_for_updates (frozen : bool) (repo current : string)
    (newer : string → string → option bool) (response : option Release)
    : option (string * string) :=
  if negb frozen then None
  else if bool_decide (repo = UNSET_REPO) then None
  else
    match response with
    | None => None
    | Some latest_release =>
        match tag_name latest_release with
        | None => None
        | Some tag =>
            let latest_version_str := lstrip_v tag in
            match newer latest_version_str current with
            | Some true =>
                match find_installer (default [] (assets latest_release)) with
                | Installer url => Some (latest_version_str, url)
                | _ => None
                end
            | _ => None
            end
        end
    end.

(** ** Sample data *)

Module Sample.

Definition invoice3 : Document := [["p1"]; ["p2"]; ["p3"]].
Definition header : Page := ["logo"].

Definition disk : gmap string file :=
  <["C:\in\a.pdf" := PdfFile invoice3]>
    (<["C:\lh.pdf" := PdfFile [header]]>
       (<["C:\lh2.pdf" := PdfFile [header; header]]> ∅)).

(** A quiet disk: every file is 100 bytes, was just modified, and
    nothing is locked. *)
Definition quiet : Env :=
  {| probe_at := λ _ _, Size 100;
     mtime_at := λ _ t, Some t;
     resolve := λ p, p;
     open_at := λ _ _, IoOk;
     replace_at := λ _ _ _, IoOk;
     read_error_text := λ _, "cannot read file" |}.

(** A viewer holds the files open until time [free]. *)
Definition locked_until (free : Z) : Env :=
  {| probe_at := λ _ _, Size 100;
     mtime_at := λ _ t, Some t;
     resolve := λ p, p;
     open_at := λ _ t, if t <? free then IoPermissionError else IoOk;
     replace_at := λ _ _ _, IoOk;
     read_error_text := λ _, "cannot read file" |}.

(** A copy that never finishes: the file grows at every poll. *)
Definition growing : Env :=
  {| probe_at := λ _ t, Size (t + 1);
     mtime_at := λ _ t, Some t;
     resolve := λ p, p;
     open_at := λ _ _, IoOk;
     replace_at := λ _ _ _, IoOk;
     read_error_text := λ _, "cannot read file" |}.

(** The disk refuses every write with an error that is not a lock. *)
Definition read_only : Env :=
  {| probe_at := λ _ _, Size 100;
     mtime_at := λ _ t, Some t;
     resolve := λ p, p;
     open_at := λ _ _, IoError "read-only file system";
     replace_at := λ _ _ _, IoOk;
     read_error_text := λ _, "cannot read file" |}.

(** A viewer keeps the invoices open for good: writing beside them
    works, replacing them does not. *)
Definition viewer_open : Env :=
  {| probe_at := λ _ _, Size 100;
     mtime_at := λ _ t, Some t;
     resolve := λ p, p;
     open_at := λ _ _, IoOk;
     replace_at := λ _ _ _, IoPermissionError;
     read_error_text := λ _, "cannot read file" |}.

(** A second invoice, of one page, beside the first. *)
Definition invoice1 : Document := [["q1"]].

Definition disk_two : gmap string file :=
  <["C:\in\b.pdf" := PdfFile invoice1]> disk.

Definition w0 : World :=
  {| clock := 100000; fs := disk; processed_files := ∅; trace := [] |}.

Definition a_pdf : FsEvent :=
  {| is_directory := false; src_path := "C:\in\a.pdf" |}.

(** [invoice3] with [header] on every page. *)
Definition merged3 : Document :=
  [["p1"; "logo"]; ["p2"; "logo"]; ["p3"; "logo"]].

(** Watching [C:\in] from the start. *)
Definition watching : System := boot "C:\lh.pdf" "C:\in" 100000 disk.

(** Not watching: no folder is configured. *)
Definition idle : System := boot "C:\lh.pdf" "" 100000 disk.

(** The world of [w0] with the two invoices on the disk. *)
Definition w_two : World :=
  {| clock := 100000; fs := disk_two; processed_files := ∅; trace := [] |}.

(** Watching with a letterhead of two pages. *)
Definition watching_two_pages : System :=
  boot "C:\lh2.pdf" "C:\in" 100000 disk.

End Sample.

(** * Properties *)

(** ** Paths *)

Module PathFacts.
Import Paths.

Lemma chars_text l : chars (text l) = l.
Proof. apply String.list_ascii_of_string_of_list_ascii. Qed.

Lemma text_chars s : text (chars s) = s.
Proof. apply String.string_of_list_ascii_of_string. Qed.

Lemma chars_app s1 s2 : chars (s1 +:+ s2) = chars s1 ++ chars s2.
Proof. induction s1 as [|c s1 IH]; simpl; [done | by rewrite <- IH]. Qed.

Lemma until_sep_free l : sep_free (until_sep l).
Proof.
  induction l as [|c l IH]; simpl; [constructor|].
  destruct (is_sep c) eqn:E; constructor; auto.
Qed.

Lemma until_from_sep l : until_sep l ++ from_sep l = l.
Proof.
  induction l as [|c l IH]; simpl; [done|].
  destruct (is_sep c); simpl; [done | by rewrite IH].
Qed.

Lemma from_sep_head l :
  match from_sep l with [] => True | c :: _ => is_sep c = true end.
Proof.
  induction l as [|c l IH]; simpl; [done|].
  destruct (is_sep c) eqn:E; [done | exact IH].
Qed.

Lemma until_sep_app a b :
  sep_free a →
  match b with [] => True | c :: _ => is_sep c = true end →
  until_sep (a ++ b) = a.
Proof.
  intros Ha Hb. induction Ha as [|c a Hc Ha IH]; simpl.
  - destruct b as [|c b]; simpl; [done | by rewrite Hb].
  - by rewrite Hc, IH.
Qed.

Lemma name_chars_free l : sep_free (name_chars l).
Proof.
  unfold name_chars, sep_free. apply Forall_rev, until_sep_free.
Qed.

Lemma parent_name_chars l : parent_chars l ++ name_chars l = l.
Proof.
  unfold parent_chars, name_chars.
  rewrite <- rev_app_distr, until_from_sep. apply rev_involutive.
Qed.

(** The name of a parent followed by a separator-free component is that
    component. *)
Lemma name_chars_parent_app l x :
  sep_free x → name_chars (parent_chars l ++ x) = x.
Proof.
  intros Hx. unfold name_chars, parent_chars.
  rewrite rev_app_distr, rev_involutive, until_sep_app.
  - apply rev_involutive.
  - by apply Forall_rev.
  - apply from_sep_head.
Qed.

Lemma split_last_dot_app l before after :
  split_last_dot l = Some (before, after) →
  l = before ++ "."%char :: after.
Proof.
  revert before after. induction l as [|c l IH]; intros before after; simpl; [done|].
  destruct (split_last_dot l) as [[b a]|] eqn:E.
  - intros [= <- <-]. by rewrite (IH b a eq_refl).
  - case_bool_decide as Hc; [|done]. intros [= <- <-]. by subst c.
Qed.

Lemma stem_chars_free nm : sep_free nm → sep_free (stem_chars nm).
Proof.
  intros H. unfold stem_chars.
  destruct (split_last_dot nm) as [[[|b before] [|a after]]|] eqn:E; try done.
  apply split_last_dot_app in E. rewrite E in H.
  by apply Forall_app in H as [H _].
Qed.

Lemma starts_with_app a b : starts_with a (a ++ b) = true.
Proof.
  induction a as [|c a IH]; simpl; [done|].
  by rewrite bool_decide_eq_true_2, IH.
Qed.

Lemma endswith_app l suffix : endswith (text (l ++ chars suffix)) suffix = true.
Proof.
  unfold endswith. rewrite chars_text, rev_app_distr. apply starts_with_app.
Qed.

(** The name of [p.with_suffix(s)] ends with [s]. *)
Lemma with_suffix_name p s q :
  sep_free (chars s) →
  with_suffix p s = Some q →
  ∃ st, sep_free st ∧ name q = text (st ++ chars s).
Proof.
  intros Hs. unfold with_suffix.
  destruct (name_chars (chars p)) as [|c nm] eqn:E; [done|].
  intros [= <-]. exists (stem_chars (c :: nm)).
  assert (sep_free (stem_chars (c :: nm))) as Hst.
  { apply stem_chars_free. rewrite <- E. apply name_chars_free. }
  split; [done|].
  unfold name. rewrite chars_text, name_chars_parent_app; [done|].
  by apply Forall_app.
Qed.

Lemma with_suffix_endswith p s q :
  sep_free (chars s) →
  with_suffix p s = Some q → endswith (name q) s = true.
Proof.
  intros Hs Hq. destruct (with_suffix_name p s q Hs Hq) as (st & _ & ->).
  apply endswith_app.
Qed.

Lemma merged_suffix_free : sep_free (chars ".merged.pdf").
Proof. repeat constructor. Qed.

(** The sibling the in-place merge writes first is never the invoice
    itself: its name ends with the merged suffix, and an invoice with
    such a name is skipped. *)
Lemma temp_path_fresh invoice_path temp_path :
  endswith (name invoice_path) ".merged.pdf" = false →
  with_suffix invoice_path ".merged.pdf" = Some temp_path →
  temp_path ≠ invoice_path.
Proof.
  intros Hn Ht ->.
  apply with_suffix_endswith in Ht; [congruence | apply merged_suffix_free].
Qed.

Lemma name_joinpath folder nm :
  sep_free (chars nm) → name (joinpath folder nm) = nm.
Proof.
  intros Hnm. unfold joinpath, name.
  destruct (rev (chars folder)) as [|c r] eqn:E.
  - unfold name_chars. rewrite <- (app_nil_r (rev (chars nm))), until_sep_app;
      [by rewrite rev_involutive, text_chars | by apply Forall_rev | done].
  - assert (∀ k, match rev k with [] => False | c :: _ => is_sep c = true end →
                 name_chars (k ++ chars nm) = chars nm) as Hk.
    { intros k Hk. unfold name_chars. rewrite rev_app_distr, until_sep_app.
      - apply rev_involutive.
      - by apply Forall_rev.
      - destruct (rev k); [done | exact Hk]. }
    destruct (is_sep c) eqn:Hc.
    + rewrite chars_app, Hk; [apply text_chars | by rewrite E].
    + rewrite !chars_app, app_assoc, Hk; [apply text_chars|].
      rewrite rev_app_distr. done.
Qed.

End PathFacts.

(** ** The write-and-commit loop *)

Lemma repeat_shift {A} (x : A) k l : repeat x k ++ x :: l = x :: repeat x k ++ l.
Proof. induction k as [|k IH]; simpl; [done | by rewrite IH]. Qed.

Section SaveLoop.

Variable env : Env.
Variables (writer : Document) (temp_path invoice_path : string).
Variable output_path : option string.

#[local] Arguments Z.add : simpl never.
#[local] Arguments Z.mul : simpl never.
#[local] Arguments Z.sub : simpl never.
#[local] Arguments Z.ltb : simpl never.
#[local] Arguments Z.eqb : simpl never.

Local Abbreviation loop n w := (save_loop env n writer temp_path invoice_path output_path w).
Local Abbreviation attempt t := (attempt_result env temp_path invoice_path output_path t).

Lemma after_locked_0 w : after_locked_attempts temp_path 0 w w.
Proof. unfold after_locked_attempts. repeat split; auto. lia. Qed.

Lemma save_loop_locked k : ∀ n w,
  (∀ i, (i < k)%nat → attempt (clock w + 1500 * Z.of_nat i) = IoPermissionError) →
  ∃ w', loop (k + n)%nat w = loop n w' ∧ after_locked_attempts temp_path k w w'.
Proof.
  induction k as [|k IH]; intros n w Hk.
  - exists w. split; [done | apply after_locked_0].
  - assert (attempt (clock w) = IoPermissionError) as H0.
    { specialize (Hk O ltac:(lia)). by rewrite Z.mul_0_r, Z.add_0_r in Hk. }
    assert (∀ w1, clock w1 = clock w + 1500 →
              ∀ i, (i < k)%nat →
                attempt (clock w1 + 1500 * Z.of_nat i) = IoPermissionError) as Hnext.
    { intros w1 Hc i Hi. specialize (Hk (S i) ltac:(lia)).
      rewrite Hc. rewrite <- Hk. f_equal. lia. }
    unfold attempt_result in H0. simpl.
    destruct (open_at env temp_path (clock w)) eqn:Hopen; try done.
    + destruct output_path as [out|] eqn:Hout; [done|]. simpl.
      rewrite H0.
      match goal with
      | |- context [save_loop _ (k + n) _ _ _ _ ?w1] =>
          destruct (IH n w1 (Hnext w1 eq_refl))
            as (w' & Heq & Hc & Hs & Hr & Hp & Hf & Ht)
      end.
      exists w'. split; [exact Heq|].
      unfold after_locked_attempts. simpl in *. repeat split.
      * lia.
      * by rewrite Hs, repeat_shift.
      * exact Hr.
      * exact Hp.
      * intros q Hq. rewrite Hf by done. by rewrite lookup_insert_ne.
      * intros e He. apply Ht. by do 2 apply list_elem_of_further.
    + match goal with
      | |- context [save_loop _ (k + n) _ _ _ _ ?w1] =>
          destruct (IH n w1 (Hnext w1 eq_refl))
            as (w' & Heq & Hc & Hs & Hr & Hp & Hf & Ht)
      end.
      exists w'. split; [exact Heq|].
      unfold after_locked_attempts. simpl in *. repeat split; auto.
      * lia.
      * by rewrite Hs, repeat_shift.
      * intros e He. apply Ht. by apply list_elem_of_further.
Qed.

(** A successful attempt. *)
Lemma save_loop_success n w :
  attempt (clock w) = IoOk →
  ∃ w', loop (S n) w = (None, w')
    ∧ clock w' = clock w
    ∧ sleeps (trace w') = sleeps (trace w)
    ∧ processed_files w' = processed_files w
    ∧ (∀ e, e ∈ trace w → e ∈ trace w')
    ∧ Wrote temp_path writer ∈ trace w'
    ∧ match output_path with
      | None =>
          fs w' !! invoice_path = Some (PdfFile writer)
          ∧ replaced_in_place (trace w')
            = invoice_path :: replaced_in_place (trace w)
          ∧ Replaced temp_path invoice_path ∈ trace w'
          ∧ (∀ q, q ≠ temp_path → q ≠ invoice_path → fs w' !! q = fs w !! q)
      | Some _ =>
          fs w' !! temp_path = Some (PdfFile writer)
          ∧ replaced_in_place (trace w') = replaced_in_place (trace w)
          ∧ (∀ q, q ≠ temp_path → fs w' !! q = fs w !! q)
      end.
Proof.
  unfold attempt_result. intros H. simpl.
  destruct (open_at env temp_path (clock w)) eqn:Hopen; try done.
  destruct output_path as [out|]; simpl.
  - eexists. split; [reflexivity|]. simpl. repeat split; auto.
    + intros e He. by do 3 apply list_elem_of_further.
    + do 2 apply list_elem_of_further. apply list_elem_of_here.
    + apply lookup_insert_eq.
    + intros q Hq. by rewrite lookup_insert_ne.
  - rewrite H. unfold os_replace. simpl. rewrite lookup_insert_eq.
    eexists. split; [reflexivity|]. simpl. repeat split; auto.
    + intros e He. by do 4 apply list_elem_of_further.
    + do 3 apply list_elem_of_further. apply list_elem_of_here.
    + apply lookup_insert_eq.
    + do 2 apply list_elem_of_further. apply list_elem_of_here.
    + intros q Hq1 Hq2.
      by rewrite lookup_insert_ne, lookup_delete_ne, lookup_insert_ne.
Qed.

(** Whatever the disk does, the loop replaces at most the invoice, at
    most once, only in place and only when it succeeds; it leaves every
    file but the temporary path and the invoice alone, and on failure
    the invoice too. *)
Lemma save_loop_frame n : ∀ w,
  let r := loop n w in
  processed_files (snd r) = processed_files w
  ∧ (replaced_in_place (trace (snd r)) = replaced_in_place (trace w)
     ∨ (replaced_in_place (trace (snd r))
          = invoice_path :: replaced_in_place (trace w)
        ∧ output_path = None ∧ fst r = None))
  ∧ (∀ q, q ≠ temp_path → (output_path = None → q ≠ invoice_path) →
       fs (snd r) !! q = fs w !! q)
  ∧ (fst r ≠ None → ∀ q, q ≠ temp_path → fs (snd r) !! q = fs w !! q)
  ∧ clock w ≤ clock (snd r).
Proof.
  induction n as [|n IH]; intros w; simpl.
  { repeat split; auto. lia. }
  destruct (open_at env temp_path (clock w)) eqn:Hopen.
  - destruct output_path as [out|] eqn:Hout; simpl.
    + repeat split; auto; try lia.
      * intros q Hq _. by rewrite lookup_insert_ne.
      * done.
    + destruct (replace_at env temp_path invoice_path (clock w)) eqn:Hrep.
      * unfold os_replace. simpl. rewrite lookup_insert_eq. simpl.
        repeat split; auto; try lia.
        -- intros q Hq1 Hq2. specialize (Hq2 eq_refl).
           by rewrite lookup_insert_ne, lookup_delete_ne, lookup_insert_ne.
        -- done.
      * match goal with
        | |- context [save_loop _ n _ _ _ _ ?w1] =>
            destruct (IH w1) as (Hp & Hr & Hc & Hd & Ht)
        end.
        simpl in *. repeat split; auto; try lia.
        -- intros q Hq1 Hq2. rewrite Hc by done. by rewrite lookup_insert_ne.
        -- intros Hf q Hq. rewrite Hd by done. by rewrite lookup_insert_ne.
      * simpl. repeat split; auto; try lia.
        -- intros q Hq _. by rewrite lookup_insert_ne.
        -- intros _ q Hq. by rewrite lookup_insert_ne.
  - destruct (IH (sleep 1500 w)) as (Hp & Hr & Hc & Hd & Ht).
    simpl in *. repeat split; auto; lia.
  - simpl. repeat split; auto. lia.
Qed.

End SaveLoop.

(** ** The merge operation *)

Section Merge.

Variable env : Env.

Lemma merge_pages_ok invoice letterhead :
  length letterhead = 1%nat →
  merge_pages invoice letterhead
  = inr (map (λ page, merge_page page (nth 0 letterhead [])) invoice).
Proof. intros H. unfold merge_pages. by rewrite H. Qed.

Lemma merge_pages_invalid invoice letterhead :
  length letterhead ≠ 1%nat →
  merge_pages invoice letterhead = inl InvalidLetterhead.
Proof.
  intros H. unfold merge_pages.
  destruct (Nat.eqb_spec (length letterhead) 1); [done | reflexivity].
Qed.

Lemma replaced_report_failure invoice_path output_path e w :
  replaced_in_place (trace (report_failure invoice_path output_path e w))
  = replaced_in_place (trace w).
Proof. unfold report_failure. by destruct output_path. Qed.

Lemma report_failure_frame invoice_path output_path e w :
  let w' := report_failure invoice_path output_path e w in
  clock w' = clock w ∧ fs w' = fs w
  ∧ processed_files w' = processed_files w
  ∧ sleeps (trace w') = sleeps (trace w).
Proof. unfold report_failure. by destruct output_path. Qed.

Lemma merge_body_frame invoice_path letterhead_path output_path retries w :
  let r := merge_body env invoice_path letterhead_path output_path retries w in
  processed_files (snd r) = processed_files w
  ∧ (replaced_in_place (trace (snd r)) = replaced_in_place (trace w)
     ∨ (replaced_in_place (trace (snd r))
          = invoice_path :: replaced_in_place (trace w)
        ∧ output_path = None ∧ fst r = None))
  ∧ (∀ q, Some q ≠ temp_of invoice_path output_path →
       (output_path = None → fst r = None → q ≠ invoice_path) →
       fs (snd r) !! q = fs w !! q)
  ∧ clock w ≤ clock (snd r).
Proof.
  unfold merge_body.
  destruct (PdfReader env invoice_path w) as [e|invoice];
    [simpl; repeat split; auto; lia|].
  destruct (PdfReader env letterhead_path w) as [e|letterhead];
    [simpl; repeat split; auto; lia|].
  destruct (merge_pages invoice letterhead) as [e|writer];
    [simpl; repeat split; auto; lia|].
  fold (temp_of invoice_path output_path).
  destruct (temp_of invoice_path output_path) as [temp_path|];
    [|simpl; repeat split; auto; lia].
  destruct (save_loop_frame env writer temp_path invoice_path output_path
              retries w) as (Hp & Hr & Hc & Hd & Ht).
  simpl in *. repeat split; auto.
  intros q Hq Hinv.
  destruct (fst (save_loop env retries writer temp_path invoice_path
                   output_path w)) eqn:Hres.
  - apply Hd; [done | congruence].
  - apply Hc; [congruence | auto].
Qed.

(** A job that is skipped changes nothing at all. *)
Lemma merge_letterhead_skip invoice_path letterhead_path output_path retries w :
  Paths.endswith (Paths.name invoice_path) ".merged.pdf" = true
  ∨ invoice_path ∈ processed_files w →
  merge_letterhead env invoice_path letterhead_path output_path retries w = w.
Proof.
  intros H. unfold merge_letterhead.
  destruct (Paths.endswith (Paths.name invoice_path) ".merged.pdf") eqn:E;
    [done|].
  destruct H as [H|H]; [done|]. by rewrite bool_decide_eq_true_2.
Qed.

Lemma merge_letterhead_frame invoice_path letterhead_path output_path retries w :
  let w' := merge_letterhead env invoice_path letterhead_path output_path
              retries w in
  (w' = w
   ∨ ((invoice_path ∉ processed_files w)
      ∧ Paths.endswith (Paths.name invoice_path) ".merged.pdf" = false
      ∧ processed_files w' = {[invoice_path]} ∪ processed_files w
      ∧ (replaced_in_place (trace w') = replaced_in_place (trace w)
         ∨ (replaced_in_place (trace w')
              = invoice_path :: replaced_in_place (trace w)
            ∧ output_path = None))))
  ∧ (∀ q, Some q ≠ temp_of invoice_path output_path →
       (output_path = None → q ≠ invoice_path) →
       fs w' !! q = fs w !! q)
  ∧ clock w ≤ clock w'.
Proof.
  unfold merge_letterhead.
  destruct (Paths.endswith (Paths.name invoice_path) ".merged.pdf") eqn:E;
    [repeat split; auto; lia|].
  case_bool_decide as Hin; [repeat split; auto; lia|].
  destruct (merge_body_frame invoice_path letterhead_path output_path retries
              (add_processed invoice_path w)) as (Hp & Hr & Hc & Ht).
  destruct (merge_body env invoice_path letterhead_path output_path retries
              (add_processed invoice_path w)) as [[e|] w2]; simpl in *.
  - destruct (report_failure_frame invoice_path output_path e w2)
      as (Hc' & Hf' & Hp' & _).
    rewrite replaced_report_failure, Hc', Hf', Hp'.
    repeat split; auto. right. repeat split; auto.
    destruct Hr as [Hr|(Hr & Ho & ?)]; [by left | done].
  - repeat split; auto. right. repeat split; auto.
    destruct Hr as [Hr|(Hr & Ho & ?)]; [by left | by right].
Qed.

End Merge.

(** ** The stability gate *)

Section Gate.

Variable env : Env.
Variable file_path : string.

Lemma polled_S t0 n :
  polled env file_path t0 (S n)
  = probe_at env file_path t0 :: polled env file_path (t0 + 500) n.
Proof.
  unfold polled. simpl. f_equal; [f_equal; lia|].
  rewrite <- seq_shift, map_map. apply map_ext. intros i. f_equal. lia.
Qed.

Lemma polled_app t0 k m :
  polled env file_path t0 (k + m)
  = polled env file_path t0 k
    ++ polled env file_path (t0 + 500 * Z.of_nat k) m.
Proof.
  revert t0. induction k as [|k IH]; intros t0.
  - simpl. f_equal. lia.
  - change (S k + m)%nat with (S (k + m)). rewrite !polled_S, IH. simpl.
    do 3 f_equal. lia.
Qed.

Lemma polled_lookup t0 n i :
  (i < n)%nat →
  polled env file_path t0 n !! i
  = Some (probe_at env file_path (t0 + 500 * Z.of_nat i)).
Proof.
  intros Hi. unfold polled. rewrite list_lookup_fmap.
  by rewrite lookup_seq_lt.
Qed.

Lemma elem_of_polled t0 n x :
  x ∈ polled env file_path t0 n →
  ∃ i, (i < n)%nat ∧ x = probe_at env file_path (t0 + 500 * Z.of_nat i).
Proof.
  unfold polled. intros (i & -> & Hi)%list_elem_of_fmap.
  apply elem_of_seq in Hi. exists i. split; [lia | done].
Qed.

Lemma observed_sizes_elem l s : s ∈ observed_sizes l → Size s ∈ l.
Proof.
  induction l as [|[| |n] l IH]; simpl.
  - by intros ?%elem_of_nil.
  - intros H. right. auto.
  - by intros ?%elem_of_nil.
  - intros [->|H]%elem_of_cons; [left | right; auto].
Qed.

Lemma observed_sizes_app_gone a b :
  observed_sizes b = [] → observed_sizes (a ++ b) = observed_sizes a.
Proof.
  intros Hb. induction a as [|[| |n] a IH]; simpl; auto. by rewrite IH.
Qed.

Lemma observed_sizes_gone b :
  (∀ x, x ∈ b → x = Missing ∨ x = Vanished) → observed_sizes b = [].
Proof.
  induction b as [|[| |n] b IH]; intros H; simpl; auto.
  - apply IH. intros x Hx. apply H. by right.
  - destruct (H (Size n)) as [?|?]; [left | done | done].
Qed.

Lemma has_stable_pair_spec l :
  has_stable_pair l = true ↔
  ∃ (i : nat) s, l !! i = Some s ∧ l !! S i = Some s ∧ 0 < s.
Proof.
  induction l as [|a l IH]; simpl.
  { split; [done | by intros (i & s & ? & _)]. }
  destruct l as [|b l].
  { split; [done | by intros ([|i] & s & _ & ? & _)]. }
  rewrite orb_true_iff, andb_true_iff, IH. split.
  - intros [[Heq Hpos]|(i & s & H1 & H2 & H3)].
    + apply Z.eqb_eq in Heq as ->. apply Z.ltb_lt in Hpos.
      by exists O, a.
    + by exists (S i), s.
  - intros ([|i] & s & H1 & H2 & H3); simpl in *.
    + left. simplify_eq. split; [by apply Z.eqb_eq | by apply Z.ltb_lt].
    + right. by exists i, s.
Qed.

Lemma has_stable_pair_start l :
  has_stable_pair (-1 :: l) = has_stable_pair l.
Proof.
  destruct l as [|b l]; [done|].
  change (has_stable_pair (-1 :: b :: l))
    with (((b =? -1) && (0 <? b)) || has_stable_pair (b :: l)).
  destruct (Z.eqb_spec b (-1)) as [->|]; done.
Qed.

Lemma wait_loop_result n : ∀ last_size w,
  fst (wait_loop env n file_path last_size w)
  = has_stable_pair
      (last_size :: observed_sizes (polled env file_path (clock w) n)).
Proof.
  induction n as [|n IH]; intros last_size w; [done|].
  rewrite polled_S. simpl wait_loop.
  destruct (probe_at env file_path (clock w)) as [| |current_size].
  - rewrite IH. done.
  - done.
  - change (observed_sizes (Size current_size :: ?l))
      with (current_size :: observed_sizes l).
    change (has_stable_pair (last_size :: current_size :: ?l))
      with (((current_size =? last_size) && (0 <? current_size))
            || has_stable_pair (current_size :: l)).
    destruct ((current_size =? last_size) && (0 <? current_size)); [done|].
    rewrite IH. done.
Qed.

(** The gate only sleeps: half a second after each poll that does not
    end it. *)
Lemma wait_loop_frame n : ∀ last_size w,
  let r := wait_loop env n file_path last_size w in
  ∃ k, (k ≤ n)%nat
    ∧ trace (snd r) = repeat (Slept 500) k ++ trace w
    ∧ clock (snd r) = clock w + 500 * Z.of_nat k
    ∧ fs (snd r) = fs w
    ∧ processed_files (snd r) = processed_files w.
Proof.
  induction n as [|n IH]; intros last_size w; simpl.
  { exists O. simpl. repeat split; auto; lia. }
  assert (∀ last, ∃ k, (k ≤ S n)%nat
    ∧ trace (snd (wait_loop env n file_path last (sleep 500 w)))
      = repeat (Slept 500) k ++ trace w
    ∧ clock (snd (wait_loop env n file_path last (sleep 500 w)))
      = clock w + 500 * Z.of_nat k
    ∧ fs (snd (wait_loop env n file_path last (sleep 500 w))) = fs w
    ∧ processed_files (snd (wait_loop env n file_path last (sleep 500 w)))
      = processed_files w) as Hrec.
  { intros last. destruct (IH last (sleep 500 w)) as (k & Hk & Ht & Hc & Hf & Hp).
    exists (S k). simpl in *. repeat split; auto; try lia.
    by rewrite Ht, repeat_shift. }
  destruct (probe_at env file_path (clock w)) as [| |current_size].
  - apply Hrec.
  - exists O. simpl. repeat split; auto; lia.
  - destruct ((current_size =? last_size) && (0 <? current_size)).
    + exists O. simpl. repeat split; auto; lia.
    + apply Hrec.
Qed.

Lemma replaced_repeat_slept k tr :
  replaced_in_place (repeat (Slept 500) k ++ tr) = replaced_in_place tr.
Proof. induction k as [|k IH]; simpl; auto. Qed.

End Gate.

(** C3.  [wait_until_file_ready(path, timeout)] probes the file at the
    instants [clock], [clock + 0.5 s], ... at most [timeout * 2] times,
    sleeping half a second after each poll that does not end it, and
    answers true exactly when two consecutive sizes it has read are
    equal and positive.  Sizes that stay 0 for the whole timeout give
    false; two reads of 100 give true; a file that is gone from some
    poll on, before two such reads, gives false. *)
Theorem wait_until_file_ready_spec (env : Env) (file_path : string)
    (timeout : Z) (w : World) :
  let polls := Z.to_nat (timeout * 2) in
  let sizes := observed_sizes (polled env file_path (clock w) polls) in
  let r := wait_until_file_ready env file_path timeout w in
  (∃ k, (k ≤ polls)%nat
     ∧ trace (snd r) = repeat (Slept 500) k ++ trace w
     ∧ clock (snd r) = clock w + 500 * Z.of_nat k)
  ∧ (fst r = true ↔
     ∃ (i : nat) s, sizes !! i = Some s ∧ sizes !! S i = Some s ∧ 0 < s)
  ∧ ((∀ i, (i < polls)%nat →
        probe_at env file_path (clock w + 500 * Z.of_nat i) = Size 0) →
     fst r = false)
  ∧ (1 ≤ timeout →
     probe_at env file_path (clock w) = Size 100 →
     probe_at env file_path (clock w + 500) = Size 100 →
     fst r = true)
  ∧ (∀ k, (k ≤ polls)%nat →
       fst (wait_loop env k file_path (-1) w) = false →
       (∀ i, (k ≤ i < polls)%nat →
          probe_at env file_path (clock w + 500 * Z.of_nat i) = Missing
          ∨ probe_at env file_path (clock w + 500 * Z.of_nat i) = Vanished) →
       fst r = false).
Proof.
  intros polls sizes r.
  assert (fst r = has_stable_pair sizes) as Hr.
  { unfold r, wait_until_file_ready. fold polls.
    by rewrite wait_loop_result, has_stable_pair_start. }
  split; [|split; [|split; [|split]]].
  - destruct (wait_loop_frame env file_path polls (-1) w)
      as (k & Hk & Ht & Hc & _).
    exists k. auto.
  - rewrite Hr. apply has_stable_pair_spec.
  - intros Hzero. rewrite Hr. destruct (has_stable_pair sizes) eqn:E; [|done].
    apply has_stable_pair_spec in E as (i & s & H1 & _ & Hs).
    apply list_elem_of_lookup_2, observed_sizes_elem, elem_of_polled in H1
      as (j & Hj & Hp).
    rewrite Hzero in Hp by done. simplify_eq. lia.
  - intros Ht H0 H1. unfold r, wait_until_file_ready.
    destruct (Z.to_nat (timeout * 2)) as [|[|n]] eqn:E; [lia | lia|].
    simpl. rewrite H0. simpl. rewrite H1. done.
  - intros k Hk Hbefore Hgone. rewrite Hr. unfold sizes.
    replace polls with (k + (polls - k))%nat by lia.
    rewrite polled_app, observed_sizes_app_gone.
    + by rewrite wait_loop_result, has_stable_pair_start in Hbefore.
    + apply observed_sizes_gone. intros x (i & Hi & ->)%elem_of_polled.
      specialize (Hgone (k + i)%nat ltac:(lia)).
      replace (clock w + 500 * Z.of_nat k + 500 * Z.of_nat i)
        with (clock w + 500 * Z.of_nat (k + i)) by lia.
      exact Hgone.
Qed.

(** For the record: the gate keeps the last size it read across polls
    that find no file, so a file that vanishes and comes back with the
    size it had counts as stable. *)
Example gate_file_comes_back :
  let env := {| probe_at := λ _ t, if t =? 100500 then Missing else Size 100;
                mtime_at := λ _ t, Some t; resolve := λ p, p;
                open_at := λ _ _, IoOk; replace_at := λ _ _ _, IoOk;
                read_error_text := λ _, "" |} in
  fst (wait_until_file_ready env "C:\in\a.pdf" 10 Sample.w0) = true.
Proof. reflexivity. Qed.

(** ** Outcomes of a merge job *)

Section Outcomes.

Variable env : Env.

Lemma save_loop_error n writer temp_path invoice_path output_path : ∀ w e,
  fst (save_loop env n writer temp_path invoice_path output_path w) = Some e →
  e = SaveRetriesExhausted ∨ ∃ m, e = OsError m.
Proof.
  induction n as [|n IH]; intros w e; simpl.
  { intros [= <-]. by left. }
  destruct (open_at env temp_path (clock w)); [|apply IH|].
  - destruct output_path; simpl; [done|].
    destruct (replace_at env temp_path invoice_path (clock w)).
    + unfold os_replace. simpl. by rewrite lookup_insert_eq.
    + apply IH.
    + simpl. intros [= <-]. right. eauto.
  - simpl. intros [= <-]. right. eauto.
Qed.

(** The letterhead is checked before anything is written. *)
Lemma merge_body_invalid invoice_path letterhead_path output_path retries w :
  fst (merge_body env invoice_path letterhead_path output_path retries w)
    = Some InvalidLetterhead →
  snd (merge_body env invoice_path letterhead_path output_path retries w) = w.
Proof.
  unfold merge_body.
  destruct (PdfReader env invoice_path w); [done|].
  destruct (PdfReader env letterhead_path w); [done|].
  destruct (merge_pages _ _); [done|].
  destruct (match output_path with Some _ => _ | None => _ end); [|done].
  intros H. apply save_loop_error in H as [?|[? ?]]; done.
Qed.

Lemma PdfReader_add_processed p q w :
  PdfReader env p (add_processed q w) = PdfReader env p w.
Proof. done. Qed.

Lemma PdfReader_pdf p w d :
  fs w !! p = Some (PdfFile d) → PdfReader env p w = inr d.
Proof. unfold PdfReader. by intros ->. Qed.

(** A job that passes the two guards, reads both files and has a
    one-page letterhead, against a disk that refuses the first [k]
    attempts with a lock error. *)
Lemma merge_letterhead_retry invoice_path letterhead_path output_path retries
    w invoice letterhead temp_path k :
  Paths.endswith (Paths.name invoice_path) ".merged.pdf" = false →
  invoice_path ∉ processed_files w →
  fs w !! invoice_path = Some (PdfFile invoice) →
  fs w !! letterhead_path = Some (PdfFile letterhead) →
  length letterhead = 1%nat →
  temp_of invoice_path output_path = Some temp_path →
  (∀ i, (i < k)%nat →
     attempt_result env temp_path invoice_path output_path
       (clock w + 1500 * Z.of_nat i) = IoPermissionError) →
  let merged := map (λ page, merge_page page (nth 0 letterhead [])) invoice in
  let w' := merge_letterhead env invoice_path letterhead_path output_path
              retries w in
  let msg := "Merge failed for " +:+ Paths.name invoice_path
             +:+ ": Could not save file after multiple retries." in
  ((k < retries)%nat →
   attempt_result env temp_path invoice_path output_path
     (clock w + 1500 * Z.of_nat k) = IoOk →
   fs w' !! default invoice_path output_path = Some (PdfFile merged)
   ∧ replaced_in_place (trace w')
     = match output_path with
       | None => invoice_path :: replaced_in_place (trace w)
       | Some _ => replaced_in_place (trace w)
       end
   ∧ sleeps (trace w') = repeat 1500 k ++ sleeps (trace w)
   ∧ clock w' = clock w + 1500 * Z.of_nat k
   ∧ (∀ q, q ≠ temp_path → q ≠ default invoice_path output_path →
        fs w' !! q = fs w !! q))
  ∧ (k = retries →
     Notified "Merge Failed" msg ∈ trace w'
     ∧ Logged ("[✗] " +:+ msg) ∈ trace w'
     ∧ (is_Some output_path →
        ErrorBox "Merge Error" "Could not save file after multiple retries."
          ∈ trace w')
     ∧ replaced_in_place (trace w') = replaced_in_place (trace w)
     ∧ sleeps (trace w') = repeat 1500 k ++ sleeps (trace w)
     ∧ (∀ q, q ≠ temp_path → fs w' !! q = fs w !! q)
     ∧ (output_path = None → fs w' !! invoice_path = fs w !! invoice_path)).
Proof.
  intros Hname Hnew Hinv Hlh Hlen Htemp Hlocked merged w' msg.
  assert (w' = match save_loop env retries merged temp_path invoice_path
                       output_path (add_processed invoice_path w) with
               | (None, w2) => w2
               | (Some e, w2) => report_failure invoice_path output_path e w2
               end) as Hw'.
  { unfold w', merge_letterhead, merge_body.
    rewrite Hname, bool_decide_eq_false_2 by done.
    rewrite !PdfReader_add_processed.
    rewrite (PdfReader_pdf _ _ _ Hinv), (PdfReader_pdf _ _ _ Hlh).
    rewrite merge_pages_ok by done.
    fold (temp_of invoice_path output_path). by rewrite Htemp. }
  split.
  - intros Hk Hok.
    replace retries with (k + S (retries - S k))%nat in Hw' by lia.
    destruct (save_loop_locked env merged temp_path invoice_path output_path
                k (S (retries - S k)) (add_processed invoice_path w) Hlocked)
      as (w2 & Heq & Hc & Hs & Hr & Hp & Hf & Ht).
    simpl in Hc, Hs, Hr, Hf.
    destruct (save_loop_success env merged temp_path invoice_path output_path
                (retries - S k) w2) as (w3 & Heq3 & Hc3 & Hs3 & _ & _ & _ & Hout).
    { by rewrite Hc. }
    rewrite Heq, Heq3 in Hw'. subst w'. rewrite Hw'.
    destruct output_path as [out|]; simpl in *.
    + destruct Hout as (Hfs & Hrep & Hfr). simplify_eq.
      repeat split; try congruence.
      intros q Hq _. by rewrite Hfr, Hf.
    + destruct Hout as (Hfs & Hrep & _ & Hfr).
      repeat split; try congruence.
      intros q Hq1 Hq2. by rewrite Hfr, Hf.
  - intros ->.
    replace retries with (retries + 0)%nat in Hw' by lia.
    destruct (save_loop_locked env merged temp_path invoice_path output_path
                retries O (add_processed invoice_path w) Hlocked)
      as (w2 & Heq & Hc & Hs & Hr & Hp & Hf & Ht).
    simpl in Hc, Hs, Hr, Hf.
    rewrite Heq in Hw'. simpl in Hw'. subst w'. rewrite Hw'.
    assert (∀ q, q ≠ temp_path →
              fs (report_failure invoice_path output_path
                    SaveRetriesExhausted w2) !! q = fs w !! q) as Hframe.
    { intros q Hq. rewrite <- Hf by done. by destruct output_path. }
    unfold report_failure, msg.
    destruct output_path as [out|]; simpl in *.
    + repeat split; try done.
      * do 2 right. left.
      * right. left.
      * intros _. left.
    + repeat split; try done.
      * right. left.
      * left.
      * intros _. apply Hframe. intros ->.
        by eapply PathFacts.temp_path_fresh.
Qed.

End Outcomes.

(** ** The claims about the merge operation *)

(** C2.  For a letterhead of exactly one page, the merge yields a
    document with as many pages as the invoice, in the same order, whose
    page [i] is page [i] of the invoice with the page of the letterhead
    composited onto it; an invoice without pages yields a document
    without pages. *)
Theorem merge_pages_overlay (invoice letterhead : Document) :
  length letterhead = 1%nat →
  ∃ header result,
    letterhead = [header]
    ∧ merge_pages invoice letterhead = inr result
    ∧ length result = length invoice
    ∧ (∀ i, result !! i = (λ page, merge_page page header) <$> invoice !! i)
    ∧ (invoice = [] → result = []).
Proof.
  intros Hlen. destruct letterhead as [|header [|]]; try done.
  exists header, (map (λ page, merge_page page header) invoice).
  repeat split.
  - apply length_map.
  - intros i. apply list_lookup_fmap.
  - by intros ->.
Qed.

Lemma merge_pages_overlay_witness :
  ∃ header result,
    [Sample.header] = [header]
    ∧ merge_pages Sample.invoice3 [Sample.header] = inr result
    ∧ length result = length Sample.invoice3
    ∧ (∀ i, result !! i
            = (λ page, merge_page page header) <$> Sample.invoice3 !! i)
    ∧ (Sample.invoice3 = [] → result = []).
Proof. apply (merge_pages_overlay Sample.invoice3 [Sample.header]). reflexivity. Defined.

(** C5.  The merge fails with the invalid-letterhead error for every
    letterhead whose page count is not 1 (0 and 2 included) and passes
    the check for every one-page letterhead; when the error occurs the
    job has written nothing: the disk is as it was and the failure is
    reported. *)
Theorem invalid_letterhead_rejected (env : Env) :
  (∀ invoice letterhead, length letterhead ≠ 1%nat →
     merge_pages invoice letterhead = inl InvalidLetterhead)
  ∧ (∀ invoice, merge_pages invoice [] = inl InvalidLetterhead)
  ∧ (∀ invoice h1 h2, merge_pages invoice [h1; h2] = inl InvalidLetterhead)
  ∧ (∀ invoice letterhead, length letterhead = 1%nat →
       ∃ result, merge_pages invoice letterhead = inr result)
  ∧ (∀ invoice_path letterhead_path output_path retries w,
       fst (merge_body env invoice_path letterhead_path output_path retries w)
         = Some InvalidLetterhead →
       snd (merge_body env invoice_path letterhead_path output_path retries w)
         = w)
  ∧ (∀ invoice_path letterhead_path output_path retries w invoice letterhead,
       Paths.endswith (Paths.name invoice_path) ".merged.pdf" = false →
       invoice_path ∉ processed_files w →
       fs w !! invoice_path = Some (PdfFile invoice) →
       fs w !! letterhead_path = Some (PdfFile letterhead) →
       length letterhead ≠ 1%nat →
       let w' := merge_letterhead env invoice_path letterhead_path
                   output_path retries w in
       let msg := "Merge failed for " +:+ Paths.name invoice_path
                  +:+ ": Letterhead PDF must have exactly one page." in
       fs w' = fs w
       ∧ trace w'
         = match output_path with
           | Some _ =>
               [ErrorBox "Merge Error"
                  "Letterhead PDF must have exactly one page."]
           | None => []
           end ++ Logged ("[✗] " +:+ msg) :: Notified "Merge Failed" msg
                  :: trace w).
Proof.
  split; [|split; [|split; [|split; [|split]]]].
  - apply merge_pages_invalid.
  - intros invoice. by apply merge_pages_invalid.
  - intros invoice h1 h2. by apply merge_pages_invalid.
  - intros invoice letterhead H. rewrite merge_pages_ok by done. eauto.
  - apply merge_body_invalid.
  - intros invoice_path letterhead_path output_path retries w invoice
      letterhead Hname Hnew Hinv Hlh Hlen.
    unfold merge_letterhead, merge_body.
    rewrite Hname, bool_decide_eq_false_2 by done.
    rewrite !PdfReader_add_processed.
    rewrite (PdfReader_pdf _ _ _ _ Hinv), (PdfReader_pdf _ _ _ _ Hlh).
    rewrite merge_pages_invalid by done.
    unfold report_failure. by destruct output_path.
Qed.

Lemma invalid_letterhead_rejected_witness :
  merge_pages Sample.invoice3 [Sample.header; Sample.header]
    = inl InvalidLetterhead
  ∧ fs (merge_letterhead Sample.quiet "C:\in\a.pdf" "C:\lh2.pdf" None 3
          Sample.w0) = fs Sample.w0.
Proof.
  destruct (invalid_letterhead_rejected Sample.quiet)
    as (H1 & _ & _ & _ & _ & H6).
  split.
  - apply H1. simpl. lia.
  - eapply (H6 "C:\in\a.pdf" "C:\lh2.pdf" None 3%nat Sample.w0
              Sample.invoice3 [Sample.header; Sample.header]).
    + reflexivity.
    + simpl. set_solver.
    + reflexivity.
    + reflexivity.
    + simpl. lia.
Defined.

(** C4.  With three attempts: when the write or the replace fails with a
    lock error on the first [k < 3] attempts and the next attempt
    succeeds, the target holds exactly the merged document, an in-place
    original is replaced exactly once, and the job has slept 1.5 s after
    each failed attempt and not otherwise; when all three attempts fail,
    nothing is replaced, the original is intact, and the failure is
    notified and logged (and shown in a dialog for an explicit
    output). *)
Theorem write_and_commit_retries (env : Env)
    (invoice_path letterhead_path : string) (output_path : option string)
    (w : World) (invoice letterhead : Document) (temp_path : string)
    (k : nat) :
  Paths.endswith (Paths.name invoice_path) ".merged.pdf" = false →
  invoice_path ∉ processed_files w →
  fs w !! invoice_path = Some (PdfFile invoice) →
  fs w !! letterhead_path = Some (PdfFile letterhead) →
  length letterhead = 1%nat →
  temp_of invoice_path output_path = Some temp_path →
  (∀ i, (i < k)%nat →
     attempt_result env temp_path invoice_path output_path
       (clock w + 1500 * Z.of_nat i) = IoPermissionError) →
  let merged := map (λ page, merge_page page (nth 0 letterhead [])) invoice in
  let w' := merge_letterhead env invoice_path letterhead_path output_path 3 w in
  let msg := "Merge failed for " +:+ Paths.name invoice_path
             +:+ ": Could not save file after multiple retries." in
  ((k < 3)%nat →
   attempt_result env temp_path invoice_path output_path
     (clock w + 1500 * Z.of_nat k) = IoOk →
   fs w' !! default invoice_path output_path = Some (PdfFile merged)
   ∧ replaced_in_place (trace w')
     = match output_path with
       | None => invoice_path :: replaced_in_place (trace w)
       | Some _ => replaced_in_place (trace w)
       end
   ∧ sleeps (trace w') = repeat 1500 k ++ sleeps (trace w)
   ∧ clock w' = clock w + 1500 * Z.of_nat k)
  ∧ (k = 3%nat →
     Notified "Merge Failed" msg ∈ trace w'
     ∧ Logged ("[✗] " +:+ msg) ∈ trace w'
     ∧ (is_Some output_path →
        ErrorBox "Merge Error" "Could not save file after multiple retries."
          ∈ trace w')
     ∧ replaced_in_place (trace w') = replaced_in_place (trace w)
     ∧ (output_path = None → fs w' !! invoice_path = fs w !! invoice_path)).
Proof.
  intros Hname Hnew Hinv Hlh Hlen Htemp Hlocked merged w' msg.
  destruct (merge_letterhead_retry env invoice_path letterhead_path
              output_path 3 w invoice letterhead temp_path k
              Hname Hnew Hinv Hlh Hlen Htemp Hlocked) as [Hok Hfail].
  split.
  - intros Hk Hat. destruct (Hok Hk Hat) as (? & ? & ? & ? & _). auto.
  - intros Hk. destruct (Hfail Hk) as (? & ? & ? & ? & _ & _ & ?). auto.
Qed.

(** ** Deduplication over whole runs *)

Section Dedup.

Variable env : Env.

Lemma advances_refl w : advances w w.
Proof.
  split; [done|]. exists []. split; [done|]. split; [constructor|].
  by intros p ?%elem_of_nil.
Qed.

Lemma advances_trans w1 w2 w3 : advances w1 w2 → advances w2 w3 → advances w1 w3.
Proof.
  intros [Hs1 (n1 & Hr1 & Hd1 & Hn1)] [Hs2 (n2 & Hr2 & Hd2 & Hn2)].
  split; [set_solver|]. exists (n2 ++ n1).
  split; [by rewrite Hr2, Hr1, app_assoc|]. split.
  - apply NoDup_app. split; [done|]. split; [|done].
    intros p Hp2 Hp1. destruct (Hn2 p Hp2) as [Hnot _].
    destruct (Hn1 p Hp1) as [_ Hin]. done.
  - intros p [Hp|Hp]%elem_of_app.
    + destruct (Hn2 p Hp). set_solver.
    + destruct (Hn1 p Hp). set_solver.
Qed.

Lemma job_step_advances p w w' : job_step p w w' → advances w w'.
Proof.
  intros [[Hp Hr]|(Hnot & Hp & [Hr|Hr])].
  - split; [by rewrite Hp|]. exists []. rewrite Hr.
    split; [done|]. split; [constructor|]. by intros ? ?%elem_of_nil.
  - split; [set_solver|]. exists []. rewrite Hr.
    split; [done|]. split; [constructor|]. by intros ? ?%elem_of_nil.
  - split; [set_solver|]. exists [p]. rewrite Hr.
    split; [done|]. split; [apply NoDup_singleton|].
    intros q ->%list_elem_of_singleton. set_solver.
Qed.

Lemma advances_invariant w w' :
  dedup_invariant w → advances w w' → dedup_invariant w'.
Proof.
  intros [Hd Hin] [Hs (new & Hr & Hnd & Hnew)]. unfold dedup_invariant.
  rewrite Hr. split.
  - apply NoDup_app. split; [done|]. split; [|done].
    intros p Hp Hold. destruct (Hnew p Hp) as [Hnot _]. auto.
  - intros p [Hp|Hp]%elem_of_app.
    + by destruct (Hnew p Hp).
    + set_solver.
Qed.

Lemma job_step_same p w w' :
  processed_files w' = processed_files w →
  trace w' = trace w → job_step p w w'.
Proof. intros Hp Ht. left. by rewrite Hp, Ht. Qed.


Lemma merge_letterhead_job_step invoice_path letterhead_path output_path
    retries w :
  job_step invoice_path w
    (merge_letterhead env invoice_path letterhead_path output_path retries w).
Proof.
  destruct (merge_letterhead_frame env invoice_path letterhead_path
              output_path retries w) as [[->|(Hnot & _ & Hp & Hr)] _].
  - by left.
  - right. split; [done|]. split; [done|].
    destruct Hr as [Hr|[Hr _]]; auto.
Qed.

(** The gate and the debounce rule touch neither the processed set nor
    the disk. *)
Lemma wait_until_file_ready_frame file_path timeout w :
  let r := wait_until_file_ready env file_path timeout w in
  processed_files (snd r) = processed_files w
  ∧ fs (snd r) = fs w
  ∧ replaced_in_place (trace (snd r)) = replaced_in_place (trace w)
  ∧ clock w ≤ clock (snd r).
Proof.
  destruct (wait_loop_frame env file_path (Z.to_nat (timeout * 2)) (-1) w)
    as (k & _ & Ht & Hc & Hf & Hp).
  unfold wait_until_file_ready. repeat split; auto.
  - rewrite Ht. apply replaced_repeat_slept.
  - lia.
Qed.

Lemma job_step_shift p w w1 w' :
  processed_files w1 = processed_files w →
  replaced_in_place (trace w1) = replaced_in_place (trace w) →
  job_step p w1 w' → job_step p w w'.
Proof. unfold job_step. intros -> ->. done. Qed.

Lemma handle_pdf_job_step h file_path w :
  job_step file_path w (_handle_pdf env h file_path w).
Proof.
  unfold _handle_pdf.
  destruct (wait_until_file_ready_frame file_path 10 w) as (Hp & _ & Hr & _).
  destruct (wait_until_file_ready env file_path 10 w) as [[|] w1];
    simpl in Hp, Hr.
  - eapply job_step_shift; [done..|]. apply merge_letterhead_job_step.
  - left. by split.
Qed.

Lemma process_event_job_step h event w :
  job_step (src_path event) w (snd (_process_event env h event w)).
Proof.
  unfold _process_event.
  destruct (filtered_out event); [by left|].
  destruct (_should_process env h (src_path event) w) as [[|] h1]; simpl.
  - apply handle_pdf_job_step.
  - by left.
Qed.

Lemma toggle_watch_world a w :
  processed_files (snd (toggle_watch a w)) = processed_files w
  ∧ fs (snd (toggle_watch a w)) = fs w
  ∧ replaced_in_place (trace (snd (toggle_watch a w)))
    = replaced_in_place (trace w)
  ∧ clock (snd (toggle_watch a w)) = clock w.
Proof.
  unfold toggle_watch. destruct (observer a); [done|].
  by destruct (_ || _).
Qed.

Lemma do_toggle_advances s : advances (world s) (world (do_toggle s)).
Proof.
  unfold do_toggle.
  destruct (toggle_watch_world (app s) (world s)) as (Hp & _ & Hr & _).
  destruct (toggle_watch (app s) (world s)) as [a w]. simpl in *.
  apply (job_step_advances ""). left. by split.
Qed.

Lemma batch_loop_advances a folder files : ∀ w,
  advances w (batch_loop env a folder files w).
Proof.
  induction files as [|f files IH]; intros w; simpl; [apply advances_refl|].
  destruct (batch_out_path folder f); [|apply advances_refl].
  eapply advances_trans; [|apply IH].
  eapply job_step_advances, merge_letterhead_job_step.
Qed.

Lemma step_advances s a : advances (world s) (world (step env s a)).
Proof.
  destruct a as [dt|p f|event|event| |p|p|i o|files folder]; simpl.
  - apply (job_step_advances ""). by left.
  - apply (job_step_advances ""). by left.
  - unfold deliver. destruct (observer (app s)) as [h|]; [|apply advances_refl].
    pose proof (process_event_job_step h event (world s)) as H.
    destruct (_process_event env h event (world s)) as [h1 w1].
    by eapply job_step_advances.
  - unfold deliver. destruct (observer (app s)) as [h|]; [|apply advances_refl].
    pose proof (process_event_job_step h event (world s)) as H.
    destruct (_process_event env h event (world s)) as [h1 w1].
    by eapply job_step_advances.
  - apply do_toggle_advances.
  - unfold select_letterhead. case_bool_decide; apply advances_refl.
  - unfold select_folder. case_bool_decide; [apply advances_refl|].
    destruct (observer (app s)); [|apply advances_refl].
    eapply advances_trans; [|apply do_toggle_advances].
    match goal with
    | |- advances _ (world (do_toggle ?s1)) => apply (do_toggle_advances s1)
    end.
  - unfold manual_merge. case_bool_decide; [by apply (job_step_advances ""); left|].
    case_bool_decide; [apply advances_refl|].
    case_bool_decide; [apply advances_refl|].
    eapply job_step_advances, merge_letterhead_job_step.
  - unfold batch_merge. case_bool_decide; [by apply (job_step_advances ""); left|].
    case_bool_decide; [apply advances_refl|].
    case_bool_decide; [apply advances_refl|].
    apply batch_loop_advances.
Qed.

Lemma run_advances actions : ∀ s, advances (world s) (world (run env actions s)).
Proof.
  induction actions as [|a actions IH]; intros s; simpl; [apply advances_refl|].
  eapply advances_trans; [apply step_advances | apply IH].
Qed.

Lemma run_app actions1 actions2 s :
  run env (actions1 ++ actions2) s = run env actions2 (run env actions1 s).
Proof. apply fold_left_app. Qed.

Lemma boot_invariant letterhead folder now disk :
  dedup_invariant (world (boot letterhead folder now disk)).
Proof.
  unfold boot.
  match goal with
  | |- context [do_toggle ?s0] =>
      assert (dedup_invariant (world s0)) as H0
        by (split; [constructor | by intros ? ?%elem_of_nil]);
      destruct (_ && _); [|exact H0];
      exact (advances_invariant _ _ H0 (do_toggle_advances s0))
  end.
Qed.

End Dedup.

(** C1, as the program has it.  From the start of the process on and
    whatever happens (events, manual and batch merges, watching stopped
    and started, time passing, other programs changing the disk): every
    path that has been merged in place is in the processed set, no path
    is merged in place twice, and the set never loses a path. *)
Theorem processed_set_exactly_once (env : Env) (letterhead folder : string)
    (now : Z) (disk : gmap string file) (actions more : list action) :
  let s := run env actions (boot letterhead folder now disk) in
  let s' := run env more s in
  (∀ p, p ∈ replaced_in_place (trace (world s)) → p ∈ processed_files (world s))
  ∧ NoDup (replaced_in_place (trace (world s)))
  ∧ processed_files (world s) ⊆ processed_files (world s')
  ∧ (∀ p, p ∈ processed_files (world s) →
       count_occ string_dec (replaced_in_place (trace (world s'))) p
       = count_occ string_dec (replaced_in_place (trace (world s))) p).
Proof.
  intros s s'.
  assert (dedup_invariant (world s)) as [Hnd Hin].
  { eapply advances_invariant; [apply boot_invariant | apply run_advances]. }
  destruct (run_advances env more s) as [Hsub (new & Hr & _ & Hnew)].
  fold s' in Hsub, Hr, Hnew.
  repeat split; auto.
  intros p Hp. rewrite Hr, count_occ_app.
  rewrite (proj1 (count_occ_not_In string_dec new p)); [done|].
  intros Hpn%list_elem_of_In. by destruct (Hnew p Hpn).
Qed.

(** ** Explicit output paths *)

Section Explicit.

Variable env : Env.

Lemma merge_letterhead_explicit invoice_path letterhead_path out retries w :
  let w' := merge_letterhead env invoice_path letterhead_path (Some out)
              retries w in
  replaced_in_place (trace w') = replaced_in_place (trace w)
  ∧ (∀ q, q ≠ out → fs w' !! q = fs w !! q).
Proof.
  destruct (merge_letterhead_frame env invoice_path letterhead_path (Some out)
              retries w) as ([Heq|(_ & _ & _ & [Hr|[_ ?]])] & Hf & _);
    simpl in *; try done.
  - rewrite Heq. auto.
  - split; [done|]. intros q Hq. apply Hf; congruence.
Qed.

Lemma batch_loop_frame a folder files : ∀ w,
  let w' := batch_loop env a folder files w in
  replaced_in_place (trace w') = replaced_in_place (trace w)
  ∧ (∀ q, (∀ f, f ∈ files → batch_out_path folder f ≠ Some q) →
       fs w' !! q = fs w !! q).
Proof.
  induction files as [|f files IH]; intros w; simpl; [done|].
  destruct (batch_out_path folder f) as [out|] eqn:Hout; [|done].
  destruct (merge_letterhead_explicit f (app_letterhead a) out 3 w)
    as [Hr Hf].
  destruct (IH (merge_letterhead env f (app_letterhead a) (Some out) 3 w))
    as [Hr' Hf'].
  split; [congruence|].
  intros q Hq. rewrite Hf'.
  - apply Hf. intros ->. apply (Hq f); [left | done].
  - intros f' Hf''. apply Hq. by right.
Qed.

Lemma text_app a b : Paths.text (a ++ b) = Paths.text a +:+ Paths.text b.
Proof. induction a as [|c a IH]; simpl; [done | by rewrite IH]. Qed.

Lemma with_suffix_stem p s q :
  Paths.with_suffix p s = Some q →
  Paths.sep_free (Paths.chars s) →
  Paths.name q = Paths.stem p +:+ s.
Proof.
  intros Hq Hs. unfold Paths.with_suffix in Hq.
  destruct (Paths.name_chars (Paths.chars p)) as [|c nm] eqn:E; [done|].
  simplify_eq. unfold Paths.name, Paths.stem.
  rewrite PathFacts.chars_text, PathFacts.name_chars_parent_app.
  - by rewrite E, text_app, PathFacts.text_chars.
  - apply Forall_app. split; [|done].
    apply PathFacts.stem_chars_free. rewrite <- E.
    apply PathFacts.name_chars_free.
Qed.

Lemma batch_out_path_name folder f out :
  batch_out_path folder f = Some out →
  out = Paths.joinpath folder (Paths.stem f +:+ ".merged.pdf")
  ∧ Paths.name out = Paths.stem f +:+ ".merged.pdf"
  ∧ (Paths.endswith (Paths.name f) ".merged.pdf" = false → out ≠ f).
Proof.
  unfold batch_out_path.
  destruct (Paths.with_suffix f ".merged.pdf") as [q|] eqn:Hq; [|done].
  intros [= <-].
  pose proof (with_suffix_stem _ _ _ Hq PathFacts.merged_suffix_free) as Hn.
  pose proof (PathFacts.with_suffix_endswith _ _ _
                PathFacts.merged_suffix_free Hq) as He.
  assert (Paths.name (Paths.joinpath folder (Paths.name q)) = Paths.name q)
    as Hj.
  { apply PathFacts.name_joinpath. unfold Paths.name at 1.
    rewrite PathFacts.chars_text. apply PathFacts.name_chars_free. }
  split; [by rewrite Hn|]. split; [by rewrite Hj|].
  intros Hf Heq. rewrite <- Heq, Hj in Hf. congruence.
Qed.

Lemma batch_out_path_some folder f :
  Paths.name f ≠ "" → is_Some (batch_out_path folder f).
Proof.
  unfold batch_out_path, Paths.name, Paths.with_suffix. intros H.
  destruct (Paths.name_chars (Paths.chars f)) as [|c nm]; [done | eauto].
Qed.

Lemma batch_out_path_merged folder f out :
  batch_out_path folder f = Some out →
  Paths.endswith (Paths.name out) ".merged.pdf" = true.
Proof.
  intros Ho. destruct (batch_out_path_name folder f out Ho) as (_ & -> & _).
  unfold Paths.stem. rewrite <- (PathFacts.text_chars ".merged.pdf") at 1.
  rewrite <- text_app. apply PathFacts.endswith_app.
Qed.

Lemma batch_out_not_source folder g out f :
  batch_out_path folder g = Some out →
  Paths.endswith (Paths.name f) ".merged.pdf" = false → out ≠ f.
Proof.
  intros Ho Hf ->. apply batch_out_path_merged in Ho. congruence.
Qed.

(** A batch over sources that can be merged, on a disk that lets every
    output be written: each source gets its output file, and is left as
    it was. *)
Lemma batch_loop_writes a folder letterhead files : ∀ w,
  NoDup files →
  fs w !! app_letterhead a = Some (PdfFile letterhead) →
  length letterhead = 1%nat →
  (∀ f, f ∈ files →
     Paths.name f ≠ ""
     ∧ Paths.endswith (Paths.name f) ".merged.pdf" = false
     ∧ (f ∉ processed_files w)
     ∧ ∃ invoice, fs w !! f = Some (PdfFile invoice)) →
  (∀ f out, f ∈ files → batch_out_path folder f = Some out →
     out ≠ app_letterhead a ∧ open_at env out (clock w) = IoOk) →
  (∀ f g, f ∈ files → g ∈ files →
     batch_out_path folder f = batch_out_path folder g → f = g) →
  ∀ f invoice, f ∈ files → fs w !! f = Some (PdfFile invoice) →
    ∃ out, batch_out_path folder f = Some out
      ∧ fs (batch_loop env a folder files w) !! out
        = Some (PdfFile (map (λ page, merge_page page (nth 0 letterhead []))
                           invoice))
      ∧ fs (batch_loop env a folder files w) !! f = Some (PdfFile invoice).
Proof.
  induction files as [|f0 rest IH];
    intros w Hnd Hlh Hlen Hfiles Hout Hinj f invoice Hf Hinv.
  { by apply elem_of_nil in Hf. }
  apply NoDup_cons in Hnd as [Hf0 Hnd].
  destruct (Hfiles f0) as (Hn0 & Hg0 & Hp0 & [inv0 Hi0]); [left|].
  destruct (batch_out_path_some folder f0 Hn0) as [out0 Ho0].
  destruct (Hout f0 out0) as [Hlh0 Hopen0]; [left | done|].
  simpl. rewrite Ho0.
  set (w1 := merge_letterhead env f0 (app_letterhead a) (Some out0) 3 w).
  (* the first job *)
  destruct (merge_letterhead_retry env f0 (app_letterhead a) (Some out0) 3 w
              inv0 letterhead out0 O Hg0 Hp0 Hi0 Hlh Hlen eq_refl)
    as [Hsucc _]; [intros i Hi; lia|].
  destruct Hsucc as (Hfs1 & _ & _ & Hc1 & Hframe1); [lia | |].
  { unfold attempt_result.
    replace (clock w + 1500 * Z.of_nat 0) with (clock w) by lia.
    by rewrite Hopen0. }
  fold w1 in Hfs1, Hc1, Hframe1. simpl in Hfs1, Hframe1.
  assert (clock w1 = clock w) as Hclock by lia.
  assert (∀ q, q ≠ out0 → fs w1 !! q = fs w !! q) as Hsame
    by (intros q Hq; by apply Hframe1).
  assert (∀ g, g ∈ rest → g ∉ processed_files w1) as Hproc.
  { intros g Hg.
    destruct (Hfiles g) as (_ & _ & Hpg & _); [by right|].
    destruct (merge_letterhead_frame env f0 (app_letterhead a) (Some out0) 3 w)
      as ([Heq|(_ & _ & Hp & _)] & _); fold w1 in Heq || fold w1 in Hp.
    - by rewrite Heq.
    - rewrite Hp. intros [Hx|Hx]%elem_of_union; [|done].
      apply elem_of_singleton in Hx. subst g. done. }
  assert (∀ g, g ∈ f0 :: rest → out0 ≠ g ∧ ∀ g' o, g' ∈ f0 :: rest →
            batch_out_path folder g' = Some o → o ≠ g) as Hsrc.
  { intros g Hg. destruct (Hfiles g Hg) as (_ & Hgg & _).
    split; [by eapply batch_out_not_source|].
    intros g' o _ Ho. by eapply batch_out_not_source. }
  destruct (batch_loop_frame a folder rest w1) as [_ Hrest].
  apply elem_of_cons in Hf as [->|Hf].
  - rewrite Hi0 in Hinv. simplify_eq. exists out0. split; [done|]. split.
    + rewrite Hrest; [exact Hfs1|].
      intros g Hg Hog. apply Hf0.
      rewrite (Hinj f0 g); [done | left | by right | congruence].
    + rewrite Hrest.
      * rewrite Hsame; [done|].
        destruct (Hsrc f0) as [Hne _]; [left|]. by apply not_eq_sym.
      * intros g Hg Hog. destruct (Hsrc f0) as [_ H]; [left|].
        apply (H g f0); [by right | done | done].
  - apply (IH w1); try done.
    + rewrite Hsame; [done | by apply not_eq_sym].
    + intros g Hg. destruct (Hfiles g) as (? & ? & _ & [ig Hig]); [by right|].
      split_and!; [done | done | by apply Hproc|].
      exists ig. rewrite Hsame; [done|].
      destruct (Hsrc g) as [Hne _]; [by right|]. by apply not_eq_sym.
    + intros g o Hg Ho. destruct (Hout g o) as [? ?]; [by right | done|].
      split; [done | by rewrite Hclock].
    + intros g g' Hg Hg'. apply Hinj; by right.
    + rewrite Hsame; [done|].
      destruct (Hsrc f) as [Hne _]; [by right|]. by apply not_eq_sym.
Qed.

Lemma batch_loop_skip a folder files : ∀ w,
  (∀ f, f ∈ files →
     Paths.endswith (Paths.name f) ".merged.pdf" = true
     ∨ f ∈ processed_files w) →
  batch_loop env a folder files w = w.
Proof.
  induction files as [|f files IH]; intros w H; simpl; [done|].
  destruct (batch_out_path folder f); [|done].
  rewrite merge_letterhead_skip by (apply H; left).
  apply IH. intros f' Hf'. apply H. by right.
Qed.

End Explicit.

(** C8, as the program has it.  A job with an explicit output path
    never replaces anything in place and leaves every file other than
    the output path as it was, so the source keeps its content and name
    whenever the output path is another path.  When the source passes
    the two skip guards, both PDFs can be read, the letterhead has one
    page and an attempt succeeds within the retries, the merged document
    is at the output path.  In batch mode the output path of a source is
    [<stem>.merged.pdf] inside the chosen folder, which is never the
    source itself when the source passes the name guard, and a batch
    leaves alone every file that is not the output path of a selected
    source.  A batch writes that file for every selected source and
    leaves the source as it was, when a letterhead of one page and an
    output folder are set, the sources are distinct, readable PDFs that
    pass the two guards, their output paths are distinct and none is the
    letterhead, and the disk lets each output be opened for writing
    whenever it is tried. *)
Theorem explicit_output_keeps_source (env : Env) :
  (∀ invoice_path letterhead_path out retries w,
     let w' := merge_letterhead env invoice_path letterhead_path (Some out)
                 retries w in
     replaced_in_place (trace w') = replaced_in_place (trace w)
     ∧ (∀ q, q ≠ out → fs w' !! q = fs w !! q)
     ∧ (out ≠ invoice_path → fs w' !! invoice_path = fs w !! invoice_path))
  ∧ (∀ invoice_path letterhead_path out retries w invoice letterhead k,
       Paths.endswith (Paths.name invoice_path) ".merged.pdf" = false →
       invoice_path ∉ processed_files w →
       fs w !! invoice_path = Some (PdfFile invoice) →
       fs w !! letterhead_path = Some (PdfFile letterhead) →
       length letterhead = 1%nat →
       (k < retries)%nat →
       (∀ i, (i < k)%nat →
          open_at env out (clock w + 1500 * Z.of_nat i) = IoPermissionError) →
       open_at env out (clock w + 1500 * Z.of_nat k) = IoOk →
       fs (merge_letterhead env invoice_path letterhead_path (Some out)
             retries w) !! out
       = Some (PdfFile (map (λ page, merge_page page (nth 0 letterhead []))
                          invoice)))
  ∧ (∀ folder f out,
       batch_out_path folder f = Some out →
       out = Paths.joinpath folder (Paths.stem f +:+ ".merged.pdf")
       ∧ Paths.name out = Paths.stem f +:+ ".merged.pdf"
       ∧ (Paths.endswith (Paths.name f) ".merged.pdf" = false → out ≠ f))
  ∧ (∀ a files folder w,
       let w' := batch_merge env a files folder w in
       replaced_in_place (trace w') = replaced_in_place (trace w)
       ∧ (∀ q, (∀ f, f ∈ files → batch_out_path folder f ≠ Some q) →
            fs w' !! q = fs w !! q))
  ∧ (∀ a files folder w letterhead,
       app_letterhead a ≠ "" →
       folder ≠ "" →
       NoDup files →
       fs w !! app_letterhead a = Some (PdfFile letterhead) →
       length letterhead = 1%nat →
       (∀ f, f ∈ files →
          Paths.name f ≠ ""
          ∧ Paths.endswith (Paths.name f) ".merged.pdf" = false
          ∧ (f ∉ processed_files w)
          ∧ ∃ invoice, fs w !! f = Some (PdfFile invoice)) →
       (∀ f out, f ∈ files → batch_out_path folder f = Some out →
          out ≠ app_letterhead a) →
       (∀ f out t, f ∈ files → batch_out_path folder f = Some out →
          open_at env out t = IoOk) →
       (∀ f g, f ∈ files → g ∈ files →
          batch_out_path folder f = batch_out_path folder g → f = g) →
       ∀ f invoice, f ∈ files → fs w !! f = Some (PdfFile invoice) →
         let w' := batch_merge env a files folder w in
         fs w' !! Paths.joinpath folder (Paths.stem f +:+ ".merged.pdf")
         = Some (PdfFile (map (λ page, merge_page page (nth 0 letterhead []))
                            invoice))
         ∧ fs w' !! f = Some (PdfFile invoice)).
Proof.
  split; [|split; [|split; [|split]]].
  - intros invoice_path letterhead_path out retries w w'.
    destruct (merge_letterhead_explicit env invoice_path letterhead_path out
                retries w) as [Hr Hf].
    repeat split; auto.
  - intros invoice_path letterhead_path out retries w invoice letterhead k
      Hname Hnew Hinv Hlh Hlen Hk Hlocked Hok.
    destruct (merge_letterhead_retry env invoice_path letterhead_path
                (Some out) retries w invoice letterhead out k
                Hname Hnew Hinv Hlh Hlen eq_refl) as [Hsucc _].
    + intros i Hi. unfold attempt_result. by rewrite Hlocked.
    + destruct Hsucc as (Hfs & _); [done | |exact Hfs].
      unfold attempt_result. by rewrite Hok.
  - apply batch_out_path_name.
  - intros a files folder w. unfold batch_merge.
    case_bool_decide; [done|]. case_bool_decide; [done|].
    case_bool_decide; [done|]. apply batch_loop_frame.
  - intros a files folder w letterhead Ha Hfolder Hnd Hlh Hlen Hfiles Hout
      Hopen Hinj f invoice Hf Hinv. unfold batch_merge.
    rewrite bool_decide_eq_false_2 by done.
    case_bool_decide as Hnil; [subst; by apply elem_of_nil in Hf|].
    rewrite bool_decide_eq_false_2 by done.
    destruct (batch_loop_writes env a folder letterhead files w Hnd Hlh Hlen
                Hfiles (λ g o Hg Ho, conj (Hout g o Hg Ho)
                                          (Hopen g o (clock w) Hg Ho))
                Hinj f invoice Hf Hinv) as (out & Ho & H1 & H2).
    destruct (batch_out_path_name folder f out Ho) as (<- & _).
    split; [exact H1 | exact H2].
Qed.

(** C10.  A call of the merge operation on a source that is already in
    the processed set, or whose name ends with [.merged.pdf], returns
    the world as it found it, with or without an explicit output path:
    nothing is written, nothing is reported.  So a manual merge of such
    a source, and a batch of such sources, do nothing at all. *)
Theorem skipped_jobs_are_silent (env : Env) :
  (∀ invoice_path letterhead_path output_path retries w,
     Paths.endswith (Paths.name invoice_path) ".merged.pdf" = true
     ∨ invoice_path ∈ processed_files w →
     merge_letterhead env invoice_path letterhead_path output_path retries w
     = w)
  ∧ (∀ a input_pdf output_pdf w,
       app_letterhead a ≠ "" →
       Paths.endswith (Paths.name input_pdf) ".merged.pdf" = true
       ∨ input_pdf ∈ processed_files w →
       manual_merge env a input_pdf output_pdf w = w)
  ∧ (∀ a files folder w,
       app_letterhead a ≠ "" →
       (∀ f, f ∈ files →
          Paths.endswith (Paths.name f) ".merged.pdf" = true
          ∨ f ∈ processed_files w) →
       batch_merge env a files folder w = w).
Proof.
  split; [|split].
  - apply merge_letterhead_skip.
  - intros a input_pdf output_pdf w Ha H. unfold manual_merge.
    rewrite bool_decide_eq_false_2 by done.
    case_bool_decide; [done|]. case_bool_decide; [done|].
    by apply merge_letterhead_skip.
  - intros a files folder w Ha H. unfold batch_merge.
    rewrite bool_decide_eq_false_2 by done.
    case_bool_decide; [done|]. case_bool_decide; [done|].
    by apply batch_loop_skip.
Qed.

(** ** The handler: debounce first, then the gate *)

Section Handler.

Variable env : Env.

Lemma should_process_accept h file_path w h1 :
  _should_process env h file_path w = (true, h1) →
  h1 = {| letterhead_path := letterhead_path h;
          last_processed :=
            <[resolve env file_path:=clock w]> (last_processed h);
          start_time := start_time h |}
  ∧ DEBOUNCE_SECONDS
    ≤ clock w - default 0 (last_processed h !! resolve env file_path).
Proof.
  unfold _should_process.
  destruct (mtime_at env file_path (clock w)) as [mtime|]; [|done].
  destruct (mtime <? start_time h); [done|].
  destruct (Z.ltb_spec
              (clock w - default 0 (last_processed h !! resolve env file_path))
              DEBOUNCE_SECONDS); [done|].
  intros [= <-]. done.
Qed.

Lemma should_process_reject h file_path w h1 :
  _should_process env h file_path w = (false, h1) → h1 = h.
Proof.
  unfold _should_process.
  destruct (mtime_at env file_path (clock w)) as [mtime|]; [|congruence].
  destruct (mtime <? start_time h); [congruence|].
  destruct (_ <? DEBOUNCE_SECONDS); congruence.
Qed.

(** Inside the window the debounce rule rejects, whatever the file's
    modification time. *)
Lemma should_process_debounced h file_path w last :
  last_processed h !! resolve env file_path = Some last →
  clock w - last < DEBOUNCE_SECONDS →
  _should_process env h file_path w = (false, h).
Proof.
  intros Hlast Hwin. unfold _should_process.
  destruct (mtime_at env file_path (clock w)) as [mtime|]; [|done].
  destruct (mtime <? start_time h); [done|].
  rewrite Hlast. simpl.
  destruct (Z.ltb_spec (clock w - last) DEBOUNCE_SECONDS); [done | lia].
Qed.

(** A path of the processed set goes through the handler without being
    merged: at most the gate sleeps. *)
Lemma process_event_processed h event w :
  src_path event ∈ processed_files w →
  let r := _process_event env h event w in
  fs (snd r) = fs w
  ∧ processed_files (snd r) = processed_files w
  ∧ replaced_in_place (trace (snd r)) = replaced_in_place (trace w).
Proof.
  intros Hin. unfold _process_event.
  destruct (filtered_out event); [done|].
  destruct (_should_process env h (src_path event) w) as [[|] h1]; [|done].
  simpl. unfold _handle_pdf.
  destruct (wait_until_file_ready_frame env (src_path event) 10 w)
    as (Hp & Hf & Hr & _).
  destruct (wait_until_file_ready env (src_path event) 10 w) as [[|] w1];
    simpl in *; [|done].
  rewrite merge_letterhead_skip; [done|]. right. by rewrite Hp.
Qed.

End Handler.

(** C6, as the program has it.  For an event that passes the filter the
    stages run in the order filter, debounce check, stability wait,
    merge.  The debounce decision is taken on the world as the event
    arrives: a rejected event ends there, without any wait; for an
    accepted one the timestamp recorded for the path is the time of
    arrival, not later than the end of the wait that follows, and the
    merge runs only if that wait answers ready. *)
Theorem debounce_precedes_gate (env : Env) (h : InvoiceHandler)
    (event : FsEvent) (w : World) :
  filtered_out event = false →
  let file_path := src_path event in
  let decision := _should_process env h file_path w in
  let waited := wait_until_file_ready env file_path 10 w in
  (fst decision = false → _process_event env h event w = (h, w))
  ∧ (fst decision = true →
     last_processed (snd decision) !! resolve env file_path = Some (clock w)
     ∧ clock w ≤ clock (snd waited)
     ∧ _process_event env h event w
       = (snd decision,
          if fst waited
          then merge_letterhead env file_path (letterhead_path h) None 3
                 (snd waited)
          else log_message
                 ("[!] File never stabilized: " +:+ Paths.name file_path)
                 (snd waited))).
Proof.
  intros Hfilter file_path decision waited.
  unfold _process_event. rewrite Hfilter. fold file_path decision.
  destruct decision as [[|] h1] eqn:Hd; simpl.
  - split; [done|]. intros _.
    apply should_process_accept in Hd as [-> _]. simpl.
    split; [apply lookup_insert_eq|].
    split; [apply wait_until_file_ready_frame|].
    unfold _handle_pdf. fold waited. simpl. by destruct waited as [[|] w1].
  - split; [|done]. intros _. by apply should_process_reject in Hd as ->.
Qed.

Lemma debounce_precedes_gate_witness :
  let event := {| is_directory := false; src_path := "C:\in\a.pdf" |} in
  let h := new_handler "C:\lh.pdf" Sample.w0 in
  last_processed (fst (_process_event Sample.growing h event Sample.w0))
    !! "C:\in\a.pdf" = Some 100000.
Proof.
  intros event h.
  destruct (debounce_precedes_gate Sample.growing h event Sample.w0 eq_refl)
    as [_ H].
  destruct (H eq_refl) as (Hts & _ & Heq).
  rewrite Heq. exact Hts.
Defined.

(** Against C6 as stated (filter, gate, debounce, merge): for a
    file that never stabilises the program has recorded the time of
    arrival although the gate answered not ready ten seconds later,
    where the other order records nothing; for a file that is stable the
    program records the time of arrival, the other order the time the
    wait ended. *)
Lemma gate_does_not_precede_debounce :
  let event := {| is_directory := false; src_path := "C:\in\a.pdf" |} in
  let h := new_handler "C:\lh.pdf" Sample.w0 in
  let code := _process_event Sample.growing h event Sample.w0 in
  let spec := process_event_gate_first Sample.growing h event Sample.w0 in
  fst (wait_until_file_ready Sample.growing "C:\in\a.pdf" 10 Sample.w0) = false
  ∧ last_processed (fst code) !! "C:\in\a.pdf" = Some 100000
  ∧ clock (snd code) = 110000
  ∧ last_processed (fst spec) !! "C:\in\a.pdf" = None
  ∧ code ≠ spec
  ∧ last_processed (fst (_process_event Sample.quiet h event Sample.w0))
      !! "C:\in\a.pdf" = Some 100000
  ∧ last_processed
      (fst (process_event_gate_first Sample.quiet h event Sample.w0))
      !! "C:\in\a.pdf" = Some 100500.
Proof.
  intros event h code spec.
  assert (last_processed (fst code) !! "C:\in\a.pdf" = Some 100000) as H1
    by (vm_compute; reflexivity).
  assert (last_processed (fst spec) !! "C:\in\a.pdf" = None) as H2
    by (vm_compute; reflexivity).
  assert (code ≠ spec) as H3.
  { intros Heq. rewrite Heq in H1. congruence. }
  split_and!; try done; vm_compute; reflexivity.
Qed.



(** ** Watch sessions *)

(** C9, as the program has it.  Stopping a watch session discards its
    handler and with it the debounce table; a session started later has
    an empty debounce table and its own start time.  The processed set
    belongs to the process, not to the session: stopping and starting
    leave it as it is, so a path merged in place during an earlier
    session is not merged again in a later one - its events leave the
    disk and the list of in-place replacements unchanged. *)
Theorem watch_restart_keeps_processed_set (env : Env) (s : System)
    (h : InvoiceHandler) (dt : Z) :
  observer (app s) = Some h →
  app_letterhead (app s) ≠ "" →
  watch_folder (app s) ≠ "" →
  let s1 := step env s ToggleWatch in
  let s2 := step env s1 (Elapse dt) in
  let s3 := step env s2 ToggleWatch in
  observer (app s1) = None
  ∧ observer (app s3)
    = Some {| letterhead_path := app_letterhead (app s);
              last_processed := ∅;
              start_time := clock (world s) + dt |}
  ∧ processed_files (world s1) = processed_files (world s)
  ∧ processed_files (world s3) = processed_files (world s)
  ∧ (∀ event,
       src_path event ∈ processed_files (world s) →
       let s4 := step env s3 (Modified event) in
       fs (world s4) = fs (world s3)
       ∧ processed_files (world s4) = processed_files (world s)
       ∧ replaced_in_place (trace (world s4))
         = replaced_in_place (trace (world s3))).
Proof.
  intros Hobs Hlh Hfolder s1 s2 s3.
  assert (s1 = {| app := {| app_letterhead := app_letterhead (app s);
                            watch_folder := watch_folder (app s);
                            observer := None |};
                  world := log_message "[~] Folder watching stopped."
                             (world s) |}) as Hs1.
  { unfold s1. simpl. unfold do_toggle, toggle_watch. by rewrite Hobs. }
  assert (s3 = {| app := {| app_letterhead := app_letterhead (app s);
                            watch_folder := watch_folder (app s);
                            observer :=
                              Some (new_handler (app_letterhead (app s))
                                      (world s2)) |};
                  world := log_message
                             ("[+] Started watching folder: "
                              +:+ watch_folder (app s)) (world s2) |})
    as Hs3.
  { unfold s3, s2. rewrite Hs1. simpl. unfold do_toggle, toggle_watch. simpl.
    by rewrite !bool_decide_eq_false_2. }
  assert (processed_files (world s3) = processed_files (world s)) as Hp3.
  { rewrite Hs3. unfold s2. rewrite Hs1. done. }
  split; [by rewrite Hs1|]. split; [by rewrite Hs3; unfold s2; rewrite Hs1|].
  split; [by rewrite Hs1|]. split; [done|].
  intros event Hin s4.
  rewrite <- Hp3 in Hin.
  unfold s4. simpl. unfold deliver.
  destruct (observer (app s3)) as [h3|]; [|by rewrite Hp3].
  pose proof (process_event_processed env h3 event (world s3) Hin) as H.
  destruct (_process_event env h3 event (world s3)) as [h4 w4].
  simpl in *. destruct H as (? & ? & ?). repeat split; congruence.
Qed.

(** ** Sample runs *)


Lemma wait_until_file_ready_spec_witness :
  fst (wait_until_file_ready Sample.quiet "C:\in\a.pdf" 10 Sample.w0) = true.
Proof.
  destruct (wait_until_file_ready_spec Sample.quiet "C:\in\a.pdf" 10
              Sample.w0) as (_ & _ & _ & H & _).
  apply H; [lia | reflexivity | reflexivity].
Defined.

Lemma write_and_commit_retries_witness :
  let w' := merge_letterhead (Sample.locked_until 101000) "C:\in\a.pdf"
              "C:\lh.pdf" None 3 Sample.w0 in
  fs w' !! "C:\in\a.pdf" = Some (PdfFile Sample.merged3)
  ∧ replaced_in_place (trace w') = ["C:\in\a.pdf"]
  ∧ sleeps (trace w') = [1500]
  ∧ clock w' = 101500.
Proof.
  destruct (write_and_commit_retries (Sample.locked_until 101000)
              "C:\in\a.pdf" "C:\lh.pdf" None Sample.w0 Sample.invoice3
              [Sample.header] "C:\in\a.merged.pdf" 1) as [H _].
  - reflexivity.
  - simpl. set_solver.
  - reflexivity.
  - reflexivity.
  - reflexivity.
  - reflexivity.
  - intros [|i] Hi; [reflexivity | lia].
  - apply H; [lia | reflexivity].
Defined.

(** Against C1 as stated (the set holds exactly the paths merged in
    place): in watch mode with a two-page letterhead the invoice enters
    the processed set although it is never merged in place; a manual
    merge with an explicit output path puts its source in the set
    too. *)
Lemma processed_set_holds_unmerged_paths :
  let s1 := run Sample.quiet [Created Sample.a_pdf]
              Sample.watching_two_pages in
  let s2 := run Sample.quiet [ManualMerge "C:\in\a.pdf" "C:\out\a.pdf"]
              Sample.idle in
  ("C:\in\a.pdf" ∈ processed_files (world s1)
   ∧ replaced_in_place (trace (world s1)) = []
   ∧ fs (world s1) !! "C:\in\a.pdf" = Some (PdfFile Sample.invoice3))
  ∧ ("C:\in\a.pdf" ∈ processed_files (world s2)
     ∧ replaced_in_place (trace (world s2)) = []
     ∧ fs (world s2) !! "C:\in\a.pdf" = Some (PdfFile Sample.invoice3)).
Proof. split_and!; vm_compute; reflexivity. Qed.

Lemma processed_set_exactly_once_witness :
  let s := run Sample.quiet [Created Sample.a_pdf] Sample.watching in
  "C:\in\a.pdf" ∈ processed_files (world s).
Proof.
  intros s.
  destruct (processed_set_exactly_once Sample.quiet "C:\lh.pdf" "C:\in"
              100000 Sample.disk [Created Sample.a_pdf] [])
    as (H & _).
  apply H. vm_compute. left.
Defined.

(** Against C8 as stated: a second manual merge of a source writes
    nothing at its output path; and an output path that is the source
    path overwrites the source. *)
Lemma explicit_output_not_always_written :
  let s := run Sample.quiet
             [ManualMerge "C:\in\a.pdf" "C:\out\first.pdf";
              ManualMerge "C:\in\a.pdf" "C:\out\second.pdf"]
             Sample.idle in
  let s' := run Sample.quiet [ManualMerge "C:\in\a.pdf" "C:\in\a.pdf"]
              Sample.idle in
  fs (world s) !! "C:\out\first.pdf" = Some (PdfFile Sample.merged3)
  ∧ fs (world s) !! "C:\out\second.pdf" = None
  ∧ fs (world Sample.idle) !! "C:\in\a.pdf" = Some (PdfFile Sample.invoice3)
  ∧ fs (world s') !! "C:\in\a.pdf" = Some (PdfFile Sample.merged3).
Proof. split_and!; vm_compute; reflexivity. Qed.

Lemma explicit_output_keeps_source_witness :
  let w' := merge_letterhead Sample.quiet "C:\in\a.pdf" "C:\lh.pdf"
              (Some "C:\out\a.pdf") 3 Sample.w0 in
  let batch := batch_merge Sample.quiet (app Sample.idle)
                 ["C:\in\a.pdf"; "C:\in\b.pdf"] "C:\out" Sample.w_two in
  (fs w' !! "C:\out\a.pdf" = Some (PdfFile Sample.merged3)
   ∧ fs w' !! "C:\in\a.pdf" = fs Sample.w0 !! "C:\in\a.pdf")
  ∧ (fs batch !! "C:\out\a.merged.pdf" = Some (PdfFile Sample.merged3)
     ∧ fs batch !! "C:\in\a.pdf" = Some (PdfFile Sample.invoice3))
  ∧ (fs batch !! "C:\out\b.merged.pdf" = Some (PdfFile [["q1"; "logo"]])
     ∧ fs batch !! "C:\in\b.pdf" = Some (PdfFile Sample.invoice1)).
Proof.
  destruct (explicit_output_keeps_source Sample.quiet)
    as (H1 & H2 & _ & _ & H5).
  assert (∀ f invoice,
            f ∈ ["C:\in\a.pdf"; "C:\in\b.pdf"] →
            fs Sample.w_two !! f = Some (PdfFile invoice) →
            let batch := batch_merge Sample.quiet (app Sample.idle)
                           ["C:\in\a.pdf"; "C:\in\b.pdf"] "C:\out"
                           Sample.w_two in
            fs batch !! Paths.joinpath "C:\out" (Paths.stem f +:+ ".merged.pdf")
            = Some (PdfFile (map (λ page, merge_page page
                                            (nth 0 [Sample.header] []))
                               invoice))
            ∧ fs batch !! f = Some (PdfFile invoice)) as Hbatch.
  { apply (H5 (app Sample.idle) ["C:\in\a.pdf"; "C:\in\b.pdf"] "C:\out"
              Sample.w_two [Sample.header]).
    - discriminate.
    - discriminate.
    - apply NoDup_cons. split; [|apply NoDup_singleton].
      intros Hin%list_elem_of_singleton. discriminate.
    - reflexivity.
    - reflexivity.
    - intros f [->|[->|Hf]%elem_of_cons]%elem_of_cons.
      + split_and!; [discriminate | reflexivity | apply not_elem_of_empty|].
        eexists. reflexivity.
      + split_and!; [discriminate | reflexivity | apply not_elem_of_empty|].
        eexists. reflexivity.
      + by apply elem_of_nil in Hf.
    - intros f out [->|[->|Hf]%elem_of_cons]%elem_of_cons Ho.
      + vm_compute in Ho. simplify_eq. discriminate.
      + vm_compute in Ho. simplify_eq. discriminate.
      + by apply elem_of_nil in Hf.
    - intros f out t _ _. reflexivity.
    - intros f g [->|[->|Hf]%elem_of_cons]%elem_of_cons
        [->|[->|Hg]%elem_of_cons]%elem_of_cons Heq;
        try (by apply elem_of_nil in Hf); try (by apply elem_of_nil in Hg);
        try reflexivity; vm_compute in Heq; discriminate. }
  split_and!.
  - apply (H2 "C:\in\a.pdf" "C:\lh.pdf" "C:\out\a.pdf" 3%nat Sample.w0
              Sample.invoice3 [Sample.header] O).
    + reflexivity.
    + apply not_elem_of_empty.
    + reflexivity.
    + reflexivity.
    + reflexivity.
    + lia.
    + intros i Hi. lia.
    + reflexivity.
  - apply H1. discriminate.
  - apply (Hbatch "C:\in\a.pdf" Sample.invoice3); [left | reflexivity].
  - apply (Hbatch "C:\in\a.pdf" Sample.invoice3); [left | reflexivity].
  - apply (Hbatch "C:\in\b.pdf" Sample.invoice1); [right; left | reflexivity].
  - apply (Hbatch "C:\in\b.pdf" Sample.invoice1); [right; left | reflexivity].
Defined.

(** Against C9 as stated: a file merged in place in a first session,
    watching stopped and started again a minute later, the file touched
    again: the new
    session starts with the path still in the processed set; its
    handler accepts the event (the debounce table was empty) and the
    gate answers ready, but the file is not merged a second time. *)
Lemma later_session_does_not_merge_again :
  let first := run Sample.quiet [Created Sample.a_pdf] Sample.watching in
  let restarted :=
    run Sample.quiet [ToggleWatch; Elapse 60000; ToggleWatch] first in
  let later :=
    run Sample.quiet [Elapse 1000; Modified Sample.a_pdf] restarted in
  fs (world first) !! "C:\in\a.pdf" = Some (PdfFile Sample.merged3)
  ∧ observer (app restarted)
    = Some {| letterhead_path := "C:\lh.pdf"; last_processed := ∅;
              start_time := 160500 |}
  ∧ processed_files (world restarted) = {["C:\in\a.pdf"]}
  ∧ processed_files (world restarted) ≠ ∅
  ∧ (last_processed <$> observer (app later))
    = Some (<["C:\in\a.pdf" := 161500]> ∅)
  ∧ replaced_in_place (trace (world later)) = ["C:\in\a.pdf"]
  ∧ fs (world later) !! "C:\in\a.pdf" = Some (PdfFile Sample.merged3).
Proof.
  split_and!; try (vm_compute; reflexivity).
  intros H. assert ("C:\in\a.pdf" ∈ (∅ : gset string)) as Hin.
  { rewrite <- H. vm_compute. reflexivity. }
  set_solver.
Qed.

Lemma watch_restart_keeps_processed_set_witness :
  let s := run Sample.quiet [Created Sample.a_pdf] Sample.watching in
  let s3 := run Sample.quiet [ToggleWatch; Elapse 60000; ToggleWatch] s in
  processed_files (world s3) = processed_files (world s).
Proof.
  intros s s3.
  destruct (watch_restart_keeps_processed_set Sample.quiet s
              {| letterhead_path := "C:\lh.pdf";
                 last_processed := <["C:\in\a.pdf" := 100000]> ∅;
                 start_time := 100000 |} 60000) as (_ & _ & _ & H & _).
  - vm_compute. reflexivity.
  - discriminate.
  - discriminate.
  - exact H.
Defined.

Lemma skipped_jobs_are_silent_witness :
  merge_letterhead Sample.quiet "C:\in\a.merged.pdf" "C:\lh.pdf"
    (Some "C:\out\a.pdf") 3 Sample.w0 = Sample.w0.
Proof.
  destruct (skipped_jobs_are_silent Sample.quiet) as (H & _).
  apply H. left. reflexivity.
Defined.

(** * Further properties of the program *)

(** ** More on the merge operation *)

Section MergeMore.

Variable env : Env.

(** After a call the source is in the processed set, unless its name
    kept it out. *)
Lemma merge_letterhead_marks invoice_path letterhead_path output_path retries w :
  Paths.endswith (Paths.name invoice_path) ".merged.pdf" = true
  ∨ invoice_path
    ∈ processed_files
        (merge_letterhead env invoice_path letterhead_path output_path
           retries w).
Proof.
  destruct (Paths.endswith (Paths.name invoice_path) ".merged.pdf") eqn:E;
    [by left | right].
  unfold merge_letterhead. rewrite E.
  case_bool_decide as Hin; [done|].
  destruct (merge_body_frame env invoice_path letterhead_path output_path
              retries (add_processed invoice_path w)) as (Hp & _).
  destruct (merge_body env invoice_path letterhead_path output_path retries
              (add_processed invoice_path w)) as [[e|] w2]; simpl in Hp.
  - destruct (report_failure_frame invoice_path output_path e w2)
      as (_ & _ & Hp' & _).
    rewrite Hp', Hp. simpl. apply elem_of_union_l, elem_of_singleton. done.
  - rewrite Hp. simpl. apply elem_of_union_l, elem_of_singleton. done.
Qed.

Lemma save_loop_time writer temp_path invoice_path output_path n : ∀ w,
  let r := save_loop env n writer temp_path invoice_path output_path w in
  ∃ k, (k ≤ n)%nat
    ∧ clock (snd r) = clock w + 1500 * Z.of_nat k
    ∧ sleeps (trace (snd r)) = repeat 1500 k ++ sleeps (trace w)
    ∧ (fst r = Some SaveRetriesExhausted → k = n).
Proof.
  induction n as [|n IH]; intros w; simpl.
  { exists O. simpl. split_and!; auto; lia. }
  assert (∀ w1, clock w1 = clock w → sleeps (trace w1) = sleeps (trace w) →
    let r := save_loop env n writer temp_path invoice_path output_path
               (sleep 1500 w1) in
    ∃ k, (k ≤ S n)%nat
      ∧ clock (snd r) = clock w + 1500 * Z.of_nat k
      ∧ sleeps (trace (snd r)) = repeat 1500 k ++ sleeps (trace w)
      ∧ (fst r = Some SaveRetriesExhausted → k = S n)) as Hrec.
  { intros w1 Hc Hs. destruct (IH (sleep 1500 w1)) as (k & Hk & Hck & Hsk & He).
    exists (S k). simpl in *. split_and!.
    - lia.
    - lia.
    - by rewrite Hsk, repeat_shift, Hs.
    - intros H. by rewrite (He H). }
  destruct (open_at env temp_path (clock w)).
  - destruct output_path; simpl.
    + exists O. simpl. split_and!; auto; try lia. done.
    + destruct (replace_at env temp_path invoice_path (clock w)).
      * unfold os_replace. simpl. rewrite lookup_insert_eq. simpl.
        exists O. simpl. split_and!; auto; try lia. done.
      * by apply Hrec.
      * exists O. simpl. split_and!; auto; try lia. done.
  - by apply Hrec.
  - exists O. simpl. split_and!; auto; try lia. done.
Qed.

Lemma merge_body_time invoice_path letterhead_path output_path retries w :
  let r := merge_body env invoice_path letterhead_path output_path retries w in
  ∃ k, (k ≤ retries)%nat
    ∧ clock (snd r) = clock w + 1500 * Z.of_nat k
    ∧ sleeps (trace (snd r)) = repeat 1500 k ++ sleeps (trace w).
Proof.
  assert (∃ k, (k ≤ retries)%nat ∧ clock w = clock w + 1500 * Z.of_nat k
               ∧ sleeps (trace w) = repeat 1500 k ++ sleeps (trace w)) as H0.
  { exists O. simpl. split_and!; auto; lia. }
  unfold merge_body.
  destruct (PdfReader env invoice_path w); [exact H0|].
  destruct (PdfReader env letterhead_path w); [exact H0|].
  destruct (merge_pages _ _) as [e|writer]; [exact H0|].
  destruct (match output_path with Some _ => _ | None => _ end) as [t|];
    [|exact H0].
  destruct (save_loop_time writer t invoice_path output_path retries w)
    as (k & ? & ? & ? & _).
  exists k. auto.
Qed.

(** The jobs that get as far as the write loop. *)
Lemma merge_letterhead_reaches_loop invoice_path letterhead_path output_path
    retries w invoice letterhead temp_path :
  Paths.endswith (Paths.name invoice_path) ".merged.pdf" = false →
  invoice_path ∉ processed_files w →
  fs w !! invoice_path = Some (PdfFile invoice) →
  fs w !! letterhead_path = Some (PdfFile letterhead) →
  length letterhead = 1%nat →
  temp_of invoice_path output_path = Some temp_path →
  merge_letterhead env invoice_path letterhead_path output_path retries w
  = match save_loop env retries
            (map (λ page, merge_page page (nth 0 letterhead [])) invoice)
            temp_path invoice_path output_path
            (add_processed invoice_path w) with
    | (None, w2) => w2
    | (Some e, w2) => report_failure invoice_path output_path e w2
    end.
Proof.
  intros Hname Hnew Hinv Hlh Hlen Htemp.
  unfold merge_letterhead, merge_body.
  rewrite Hname, bool_decide_eq_false_2 by done.
  rewrite !PdfReader_add_processed.
  rewrite (PdfReader_pdf _ _ _ _ Hinv), (PdfReader_pdf _ _ _ _ Hlh).
  rewrite merge_pages_ok by done.
  fold (temp_of invoice_path output_path). by rewrite Htemp.
Qed.

(** The in-place loop when every write beside the invoice works and
    every replace is refused. *)
Lemma save_loop_replace_locked writer temp_path invoice_path n : ∀ w,
  (∀ i, (i ≤ n)%nat →
     open_at env temp_path (clock w + 1500 * Z.of_nat i) = IoOk
     ∧ replace_at env temp_path invoice_path (clock w + 1500 * Z.of_nat i)
       = IoPermissionError) →
  let r := save_loop env (S n) writer temp_path invoice_path None w in
  fst r = Some SaveRetriesExhausted
  ∧ fs (snd r) !! temp_path = Some (PdfFile writer).
Proof.
  induction n as [|n IH]; intros w H.
  - destruct (H O ltac:(lia)) as [Ho Hr].
    rewrite Z.mul_0_r, Z.add_0_r in Ho, Hr.
    simpl. rewrite Ho. simpl. rewrite Hr. simpl.
    split; [done | apply lookup_insert_eq].
  - destruct (H O ltac:(lia)) as [Ho Hr].
    rewrite Z.mul_0_r, Z.add_0_r in Ho, Hr.
    change (save_loop env (S (S n)) writer temp_path invoice_path None w)
      with (match open_at env temp_path (clock w) with
            | IoPermissionError =>
                save_loop env (S n) writer temp_path invoice_path None
                  (sleep 1500 w)
            | IoError m => (Some (OsError m), w)
            | IoOk =>
                let w1 :=
                  emit (Wrote temp_path writer)
                    (set_fs (<[temp_path:=PdfFile writer]> (fs w)) w) in
                match replace_at env temp_path invoice_path (clock w1) with
                | IoPermissionError =>
                    save_loop env (S n) writer temp_path invoice_path None
                      (sleep 1500 w1)
                | IoError m => (Some (OsError m), w1)
                | IoOk =>
                    match os_replace temp_path invoice_path (fs w1) with
                    | None => (Some (OsError "file not found"), w1)
                    | Some m =>
                        let msg := "Merged: " +:+ Paths.name invoice_path in
                        (None,
                         notify "Merge Complete" msg
                           (log_message ("[✓] " +:+ msg)
                              (emit (Replaced temp_path invoice_path)
                                 (set_fs m w1))))
                    end
                end
            end).
    rewrite Ho. cbv zeta. change (clock (emit _ (set_fs _ w))) with (clock w).
    rewrite Hr. apply IH. intros i Hi.
    specialize (H (S i) ltac:(lia)).
    replace (clock (sleep 1500 (emit (Wrote temp_path writer)
               (set_fs (<[temp_path:=PdfFile writer]> (fs w)) w)))
             + 1500 * Z.of_nat i)
      with (clock w + 1500 * Z.of_nat (S i)); [exact H|].
    simpl. lia.
Qed.

End MergeMore.

(** X1.  A job is never run twice on the same source: whatever the
    first call on a source did - merged it, failed, or skipped it - a
    later call on that source, with any letterhead, output path and
    retry count, returns the world unchanged. *)
Theorem merge_letterhead_once_per_source (env : Env)
    (invoice_path lh1 lh2 : string) (out1 out2 : option string)
    (retries1 retries2 : nat) (w : World) :
  merge_letterhead env invoice_path lh2 out2 retries2
    (merge_letterhead env invoice_path lh1 out1 retries1 w)
  = merge_letterhead env invoice_path lh1 out1 retries1 w.
Proof. apply merge_letterhead_skip, merge_letterhead_marks. Qed.

Lemma merge_letterhead_time (env : Env)
    (invoice_path letterhead_path : string) (output_path : option string)
    (retries : nat) (w : World) :
  ∃ k, (k ≤ retries)%nat
    ∧ clock (merge_letterhead env invoice_path letterhead_path output_path
               retries w) = clock w + 1500 * Z.of_nat k
    ∧ sleeps (trace (merge_letterhead env invoice_path letterhead_path
                       output_path retries w))
      = repeat 1500 k ++ sleeps (trace w).
Proof.
  assert (∃ k, (k ≤ retries)%nat ∧ clock w = clock w + 1500 * Z.of_nat k
               ∧ sleeps (trace w) = repeat 1500 k ++ sleeps (trace w)) as H0.
  { exists O. simpl. split_and!; auto; lia. }
  unfold merge_letterhead.
  destruct (Paths.endswith _ _); [exact H0|].
  case_bool_decide; [exact H0|].
  destruct (merge_body_time env invoice_path letterhead_path output_path
              retries (add_processed invoice_path w)) as (k & Hk & Hc & Hs).
  destruct (merge_body env invoice_path letterhead_path output_path retries
              (add_processed invoice_path w)) as [[e|] w2]; simpl in *.
  - destruct (report_failure_frame invoice_path output_path e w2)
      as (Hc' & _ & _ & Hs').
    exists k. rewrite Hc', Hs'. auto.
  - exists k. auto.
Qed.

(** X2.  The merge operation calls [time.sleep] in its write loop
    only: during one call it sleeps at most [retries] times, 1.5 s each
    time, and nothing else it does is a sleep. *)
Theorem merge_letterhead_sleeps (env : Env)
    (invoice_path letterhead_path : string) (output_path : option string)
    (retries : nat) (w : World) :
  let w' := merge_letterhead env invoice_path letterhead_path output_path
              retries w in
  ∃ k, (k ≤ retries)%nat
    ∧ sleeps (trace w') = repeat 1500 k ++ sleeps (trace w).
Proof.
  destruct (merge_letterhead_time env invoice_path letterhead_path
              output_path retries w) as (k & Hk & _ & Hs).
  exists k. auto.
Qed.

(** X3.  An in-place job touches two paths at most: every file other
    than the invoice and its [.merged.pdf] sibling is after the call as
    it was before, whatever the outcome. *)
Theorem in_place_merge_frame (env : Env) (invoice_path letterhead_path : string)
    (retries : nat) (w : World) (q : string) :
  q ≠ invoice_path →
  Paths.with_suffix invoice_path ".merged.pdf" ≠ Some q →
  fs (merge_letterhead env invoice_path letterhead_path None retries w) !! q
  = fs w !! q.
Proof.
  intros Hq Ht.
  destruct (merge_letterhead_frame env invoice_path letterhead_path None
              retries w) as (_ & Hf & _).
  apply Hf; [simpl; congruence | done].
Qed.

Lemma in_place_merge_frame_witness :
  fs (merge_letterhead Sample.quiet "C:\in\a.pdf" "C:\lh.pdf" None 3
        Sample.w0) !! "C:\lh.pdf"
  = fs Sample.w0 !! "C:\lh.pdf".
Proof.
  apply (in_place_merge_frame Sample.quiet "C:\in\a.pdf" "C:\lh.pdf" 3
           Sample.w0 "C:\lh.pdf").
  - discriminate.
  - vm_compute. discriminate.
Defined.

Section MergeOutcomes.

Variable env : Env.

Lemma save_loop_success_temp writer temp_path invoice_path n w :
  attempt_result env temp_path invoice_path None (clock w) = IoOk →
  temp_path ≠ invoice_path →
  fs (snd (save_loop env (S n) writer temp_path invoice_path None w))
    !! temp_path = None.
Proof.
  unfold attempt_result. intros H Hne. simpl.
  destruct (open_at env temp_path (clock w)); try done.
  simpl. rewrite H. unfold os_replace. simpl. rewrite lookup_insert_eq.
  simpl. rewrite lookup_insert_ne by done. apply lookup_delete_eq.
Qed.

Lemma unreadable_pdf p w :
  (∀ d, fs w !! p ≠ Some (PdfFile d)) →
  PdfReader env p w = inl (ReadError (read_error_text env p)).
Proof.
  intros H. unfold PdfReader.
  destruct (fs w !! p) as [[d|]|] eqn:E; try done. by destruct (H d).
Qed.

End MergeOutcomes.

(** X4.  An in-place job that succeeds, at once or after lock errors,
    changes exactly two paths: the invoice holds the merged document,
    and the [.merged.pdf] sibling it was written to first no longer
    exists - whatever was stored under that name before.  Every other
    file is untouched. *)
Theorem in_place_success_consumes_sibling (env : Env)
    (invoice_path letterhead_path : string) (retries : nat) (w : World)
    (invoice letterhead : Document) (temp_path : string) (k : nat) :
  Paths.endswith (Paths.name invoice_path) ".merged.pdf" = false →
  invoice_path ∉ processed_files w →
  fs w !! invoice_path = Some (PdfFile invoice) →
  fs w !! letterhead_path = Some (PdfFile letterhead) →
  length letterhead = 1%nat →
  Paths.with_suffix invoice_path ".merged.pdf" = Some temp_path →
  (k < retries)%nat →
  (∀ i, (i < k)%nat →
     attempt_result env temp_path invoice_path None
       (clock w + 1500 * Z.of_nat i) = IoPermissionError) →
  attempt_result env temp_path invoice_path None
    (clock w + 1500 * Z.of_nat k) = IoOk →
  let w' := merge_letterhead env invoice_path letterhead_path None retries w in
  fs w' !! invoice_path
  = Some (PdfFile (map (λ page, merge_page page (nth 0 letterhead []))
                     invoice))
  ∧ fs w' !! temp_path = None
  ∧ (∀ q, q ≠ invoice_path → q ≠ temp_path → fs w' !! q = fs w !! q).
Proof.
  intros Hname Hnew Hinv Hlh Hlen Htemp Hk Hlocked Hok w'.
  destruct (merge_letterhead_retry env invoice_path letterhead_path None
              retries w invoice letterhead temp_path k
              Hname Hnew Hinv Hlh Hlen Htemp Hlocked) as [Hsucc _].
  destruct (Hsucc Hk Hok) as (Hfs & _ & _ & _ & Hframe).
  split; [exact Hfs|]. split; [|intros q H1 H2; by apply Hframe].
  unfold w'.
  rewrite (merge_letterhead_reaches_loop env invoice_path letterhead_path
             None retries w invoice letterhead temp_path) by done.
  replace retries with (k + S (retries - S k))%nat by lia.
  destruct (save_loop_locked env
              (map (λ page, merge_page page (nth 0 letterhead [])) invoice)
              temp_path invoice_path None k (S (retries - S k))
              (add_processed invoice_path w) Hlocked)
    as (w2 & Heq & Hc & _).
  rewrite Heq.
  assert (temp_path ≠ invoice_path) as Hne
    by (by eapply PathFacts.temp_path_fresh).
  pose proof (save_loop_success_temp env
                (map (λ page, merge_page page (nth 0 letterhead [])) invoice)
                temp_path invoice_path (retries - S k) w2) as Ht.
  rewrite Hc in Ht. specialize (Ht Hok Hne).
  destruct (save_loop_success env
              (map (λ page, merge_page page (nth 0 letterhead [])) invoice)
              temp_path invoice_path None (retries - S k) w2)
    as (w3 & Heq3 & _); [by rewrite Hc|].
  rewrite Heq3 in Ht |- *. exact Ht.
Qed.

Lemma in_place_success_consumes_sibling_witness :
  let w := set_fs (<["C:\in\a.merged.pdf" := OtherFile]> Sample.disk)
             Sample.w0 in
  let w' := merge_letterhead (Sample.locked_until 101000) "C:\in\a.pdf"
              "C:\lh.pdf" None 3 w in
  fs w' !! "C:\in\a.pdf" = Some (PdfFile Sample.merged3)
  ∧ fs w' !! "C:\in\a.merged.pdf" = None.
Proof.
  intros w w'.
  destruct (in_place_success_consumes_sibling (Sample.locked_until 101000)
              "C:\in\a.pdf" "C:\lh.pdf" 3 w Sample.invoice3 [Sample.header]
              "C:\in\a.merged.pdf" 1) as (H1 & H2 & _).
  - reflexivity.
  - simpl. set_solver.
  - reflexivity.
  - reflexivity.
  - reflexivity.
  - reflexivity.
  - lia.
  - intros [|i] Hi; [reflexivity | lia].
  - reflexivity.
  - split; [exact H1 | exact H2].
Defined.

(** X5.  When a viewer keeps the invoice open through all the attempts
    (each write beside the invoice works, each replace is refused), the
    job fails, the invoice is as it was, and the merged document is left
    behind in the [.merged.pdf] sibling. *)
Theorem locked_invoice_leaves_sibling (env : Env)
    (invoice_path letterhead_path : string) (n : nat) (w : World)
    (invoice letterhead : Document) (temp_path : string) :
  Paths.endswith (Paths.name invoice_path) ".merged.pdf" = false →
  invoice_path ∉ processed_files w →
  fs w !! invoice_path = Some (PdfFile invoice) →
  fs w !! letterhead_path = Some (PdfFile letterhead) →
  length letterhead = 1%nat →
  Paths.with_suffix invoice_path ".merged.pdf" = Some temp_path →
  (∀ i, (i ≤ n)%nat →
     open_at env temp_path (clock w + 1500 * Z.of_nat i) = IoOk
     ∧ replace_at env temp_path invoice_path (clock w + 1500 * Z.of_nat i)
       = IoPermissionError) →
  let w' := merge_letterhead env invoice_path letterhead_path None (S n) w in
  fs w' !! temp_path
  = Some (PdfFile (map (λ page, merge_page page (nth 0 letterhead []))
                     invoice))
  ∧ fs w' !! invoice_path = Some (PdfFile invoice)
  ∧ replaced_in_place (trace w') = replaced_in_place (trace w)
  ∧ Notified "Merge Failed"
      ("Merge failed for " +:+ Paths.name invoice_path
       +:+ ": Could not save file after multiple retries.") ∈ trace w'.
Proof.
  intros Hname Hnew Hinv Hlh Hlen Htemp Hlocked w'.
  set (merged := map (λ page, merge_page page (nth 0 letterhead [])) invoice).
  destruct (merge_letterhead_retry env invoice_path letterhead_path None
              (S n) w invoice letterhead temp_path (S n)
              Hname Hnew Hinv Hlh Hlen Htemp) as [_ Hfail].
  { intros i Hi. unfold attempt_result.
    destruct (Hlocked i ltac:(lia)) as [-> ->]. done. }
  destruct (Hfail eq_refl) as (Hnote & _ & _ & Hrep & _ & _ & Hsame).
  split; [|split; [rewrite <- Hinv; by apply Hsame
                  | split; [exact Hrep | exact Hnote]]].
  unfold w'.
  rewrite (merge_letterhead_reaches_loop env invoice_path letterhead_path
             None (S n) w invoice letterhead temp_path) by done.
  destruct (save_loop_replace_locked env merged temp_path invoice_path n
              (add_processed invoice_path w) Hlocked) as [He Hfs].
  fold merged.
  destruct (save_loop env (S n) merged temp_path invoice_path None
              (add_processed invoice_path w)) as [[e|] w2]; simpl in *;
    [|done].
  exact Hfs.
Qed.

Lemma locked_invoice_leaves_sibling_witness :
  let w' := merge_letterhead Sample.viewer_open "C:\in\a.pdf" "C:\lh.pdf"
              None 3 Sample.w0 in
  fs w' !! "C:\in\a.merged.pdf" = Some (PdfFile Sample.merged3)
  ∧ fs w' !! "C:\in\a.pdf" = Some (PdfFile Sample.invoice3).
Proof.
  intros w'.
  destruct (locked_invoice_leaves_sibling Sample.viewer_open "C:\in\a.pdf"
              "C:\lh.pdf" 2 Sample.w0 Sample.invoice3 [Sample.header]
              "C:\in\a.merged.pdf") as (H1 & H2 & _).
  - reflexivity.
  - simpl. set_solver.
  - reflexivity.
  - reflexivity.
  - reflexivity.
  - reflexivity.
  - intros i Hi. split; reflexivity.
  - split; [exact H1 | exact H2].
Defined.

(** X6.  Only lock errors are retried.  When [open(temp_path, "wb")]
    fails with any other I/O error the job ends at once: no sleep, the
    disk as it was, and the text of the error is notified.  When, in
    place, the sibling is written and [os.replace] fails with such an
    error, the job ends at once too, with the invoice untouched and
    nothing replaced. *)
Theorem other_io_errors_not_retried (env : Env)
    (invoice_path letterhead_path : string) (output_path : option string)
    (retries : nat) (w : World) (invoice letterhead : Document)
    (temp_path m : string) :
  Paths.endswith (Paths.name invoice_path) ".merged.pdf" = false →
  invoice_path ∉ processed_files w →
  fs w !! invoice_path = Some (PdfFile invoice) →
  fs w !! letterhead_path = Some (PdfFile letterhead) →
  length letterhead = 1%nat →
  temp_of invoice_path output_path = Some temp_path →
  let w' := merge_letterhead env invoice_path letterhead_path output_path
              (S retries) w in
  let msg := "Merge failed for " +:+ Paths.name invoice_path +:+ ": " +:+ m in
  (open_at env temp_path (clock w) = IoError m →
   fs w' = fs w ∧ clock w' = clock w
   ∧ sleeps (trace w') = sleeps (trace w)
   ∧ Notified "Merge Failed" msg ∈ trace w')
  ∧ (output_path = None →
     open_at env temp_path (clock w) = IoOk →
     replace_at env temp_path invoice_path (clock w) = IoError m →
     fs w' !! invoice_path = fs w !! invoice_path
     ∧ clock w' = clock w
     ∧ sleeps (trace w') = sleeps (trace w)
     ∧ replaced_in_place (trace w') = replaced_in_place (trace w)
     ∧ Notified "Merge Failed" msg ∈ trace w').
Proof.
  intros Hname Hnew Hinv Hlh Hlen Htemp w' msg.
  unfold w'.
  rewrite (merge_letterhead_reaches_loop env invoice_path letterhead_path
             output_path (S retries) w invoice letterhead temp_path) by done.
  split.
  - intros Hopen. simpl. rewrite Hopen. unfold report_failure, msg.
    destruct output_path; simpl; split_and!; try done.
    + do 2 right. left.
    + right. left.
  - intros -> Hopen Hrep. simpl. rewrite Hopen. simpl. rewrite Hrep.
    assert (temp_path ≠ invoice_path) as Hne
      by (by eapply PathFacts.temp_path_fresh).
    unfold report_failure, msg. simpl. split_and!; try done.
    + by rewrite lookup_insert_ne.
    + right. left.
Qed.

Lemma other_io_errors_not_retried_witness :
  let w' := merge_letterhead Sample.read_only "C:\in\a.pdf" "C:\lh.pdf"
              None 3 Sample.w0 in
  fs w' = fs Sample.w0 ∧ clock w' = clock Sample.w0.
Proof.
  intros w'.
  destruct (other_io_errors_not_retried Sample.read_only "C:\in\a.pdf"
              "C:\lh.pdf" None 2 Sample.w0 Sample.invoice3 [Sample.header]
              "C:\in\a.merged.pdf" "read-only file system") as [H _].
  - reflexivity.
  - simpl. set_solver.
  - reflexivity.
  - reflexivity.
  - reflexivity.
  - reflexivity.
  - destruct (H eq_refl) as (H1 & H2 & _). split; [exact H1 | exact H2].
Defined.

(** X7.  A source or a letterhead that cannot be read as a PDF (missing
    or not a PDF) makes the job fail before it writes: the disk and the
    clock are as they were and the reader's error is notified - and the
    source has entered the processed set all the same, so that the job
    is not tried again. *)
Theorem unreadable_pdf_fails_before_writing (env : Env)
    (invoice_path letterhead_path : string) (output_path : option string)
    (retries : nat) (w : World) :
  Paths.endswith (Paths.name invoice_path) ".merged.pdf" = false →
  invoice_path ∉ processed_files w →
  let w' := merge_letterhead env invoice_path letterhead_path output_path
              retries w in
  let failed bad :=
    fs w' = fs w ∧ clock w' = clock w
    ∧ processed_files w' = {[invoice_path]} ∪ processed_files w
    ∧ Notified "Merge Failed"
        ("Merge failed for " +:+ Paths.name invoice_path +:+ ": "
         +:+ read_error_text env bad) ∈ trace w' in
  ((∀ d, fs w !! invoice_path ≠ Some (PdfFile d)) → failed invoice_path)
  ∧ (∀ invoice, fs w !! invoice_path = Some (PdfFile invoice) →
       (∀ d, fs w !! letterhead_path ≠ Some (PdfFile d)) →
       failed letterhead_path).
Proof.
  intros Hname Hnew w' failed. unfold failed, w', merge_letterhead, merge_body.
  rewrite Hname, bool_decide_eq_false_2 by done.
  rewrite !PdfReader_add_processed.
  split.
  - intros Hbad. rewrite (unreadable_pdf env _ _ Hbad).
    unfold report_failure. destruct output_path; simpl; split_and!; try done.
    + do 2 right. left.
    + right. left.
  - intros invoice Hinv Hbad.
    rewrite (PdfReader_pdf _ _ _ _ Hinv), (unreadable_pdf env _ _ Hbad).
    unfold report_failure. destruct output_path; simpl; split_and!; try done.
    + do 2 right. left.
    + right. left.
Qed.

Lemma unreadable_pdf_fails_before_writing_witness :
  let w' := merge_letterhead Sample.quiet "C:\in\missing.pdf" "C:\lh.pdf"
              None 3 Sample.w0 in
  fs w' = fs Sample.w0
  ∧ processed_files w' = {["C:\in\missing.pdf"]} ∪ processed_files Sample.w0.
Proof.
  intros w'.
  destruct (unreadable_pdf_fails_before_writing Sample.quiet
              "C:\in\missing.pdf" "C:\lh.pdf" None 3 Sample.w0) as [H _].
  - reflexivity.
  - simpl. set_solver.
  - destruct H as (H1 & _ & H3 & _).
    + intros d. vm_compute. discriminate.
    + split; [exact H1 | exact H3].
Defined.

(** ** The filter and the name guard *)

Section Filter.

Lemma starts_with_weaken x a b :
  Paths.starts_with x a = true → Paths.starts_with x (a ++ b) = true.
Proof.
  revert a. induction x as [|c x IH]; intros a; [done|].
  destruct a as [|d a]; simpl; [done|].
  intros [Hc Hx]%andb_true_iff. rewrite Hc. simpl. by apply IH.
Qed.

Lemma starts_with_map f x r :
  Paths.starts_with x r = true →
  Paths.starts_with (map f x) (map f r) = true.
Proof.
  revert r. induction x as [|c x IH]; intros r; [done|].
  destruct r as [|d r]; simpl; [done|].
  intros [Hc Hx]%andb_true_iff. apply bool_decide_eq_true in Hc as ->.
  rewrite bool_decide_eq_true_2 by done. simpl. by apply IH.
Qed.

Lemma endswith_name p s :
  Paths.endswith (Paths.name p) s = true → Paths.endswith p s = true.
Proof.
  unfold Paths.endswith, Paths.name, Paths.name_chars.
  rewrite PathFacts.chars_text, rev_involutive. intros H.
  rewrite <- (PathFacts.until_from_sep (rev (Paths.chars p))).
  by apply starts_with_weaken.
Qed.

Lemma endswith_lower p s :
  map Paths.lower_char (Paths.chars s) = Paths.chars s →
  Paths.endswith p s = true → Paths.endswith (Paths.lower p) s = true.
Proof.
  unfold Paths.endswith, Paths.lower. intros Hs H.
  rewrite PathFacts.chars_text, <- map_rev, <- Hs, <- map_rev.
  by apply starts_with_map.
Qed.

Lemma merged_name_filtered p is_dir :
  Paths.endswith (Paths.name p) ".merged.pdf" = true →
  filtered_out {| is_directory := is_dir; src_path := p |} = true.
Proof.
  intros H. unfold filtered_out. simpl.
  rewrite (endswith_lower p ".merged.pdf");
    [apply orb_true_r | reflexivity | by apply endswith_name].
Qed.

End Filter.

(** X8.  The watcher does not react to the files the program itself
    writes: an event on the [.merged.pdf] sibling of an in-place merge,
    or on the output file of a batch, is dropped by the filter and
    changes nothing. *)
Theorem own_output_is_filtered (env : Env) (h : InvoiceHandler) (w : World)
    (is_dir : bool) :
  (∀ invoice_path temp_path,
     Paths.with_suffix invoice_path ".merged.pdf" = Some temp_path →
     _process_event env h {| is_directory := is_dir; src_path := temp_path |} w
     = (h, w))
  ∧ (∀ folder file_path out_path,
       batch_out_path folder file_path = Some out_path →
       _process_event env h {| is_directory := is_dir; src_path := out_path |} w
       = (h, w)).
Proof.
  split.
  - intros invoice_path temp_path Ht. unfold _process_event.
    rewrite merged_name_filtered; [done|].
    by eapply PathFacts.with_suffix_endswith; [apply PathFacts.merged_suffix_free|].
  - intros folder file_path out_path Ho. unfold _process_event.
    rewrite merged_name_filtered; [done|].
    destruct (batch_out_path_name folder file_path out_path Ho) as (_ & -> & _).
    unfold Paths.stem. rewrite <- (PathFacts.text_chars ".merged.pdf") at 1.
    rewrite <- text_app. apply PathFacts.endswith_app.
Qed.

Lemma own_output_is_filtered_witness :
  let h := new_handler "C:\lh.pdf" Sample.w0 in
  _process_event Sample.quiet h
    {| is_directory := false; src_path := "C:\in\a.merged.pdf" |} Sample.w0
  = (h, Sample.w0).
Proof.
  intros h.
  destruct (own_output_is_filtered Sample.quiet h Sample.w0 false) as [H _].
  apply (H "C:\in\a.pdf"). reflexivity.
Defined.

(** X9.  The filter of the watcher is the stronger test: it compares
    the whole path in lower case, the name guard of the merge operation
    compares the name as it is.  So every event that passes the filter
    has a name the guard lets through, and in watch mode the guard on
    the name never fires. *)
Theorem filter_implies_name_guard (event : FsEvent) :
  filtered_out event = false →
  Paths.endswith (Paths.name (src_path event)) ".merged.pdf" = false.
Proof.
  intros Hf.
  destruct (Paths.endswith (Paths.name (src_path event)) ".merged.pdf") eqn:E;
    [|done].
  rewrite <- Hf. symmetry. destruct event as [d p]. simpl in E.
  by apply merged_name_filtered.
Qed.

Lemma filter_implies_name_guard_witness :
  Paths.endswith (Paths.name "C:\in\a.pdf") ".merged.pdf" = false.
Proof.
  apply (filter_implies_name_guard Sample.a_pdf). reflexivity.
Defined.

(** The converse fails: a name in upper case is dropped by the watcher
    and accepted by the guard, so a manual merge of it goes ahead. *)
Example upper_case_name_passes_guard :
  filtered_out {| is_directory := false; src_path := "C:\in\A.MERGED.PDF" |}
  = true
  ∧ Paths.endswith (Paths.name "C:\in\A.MERGED.PDF") ".merged.pdf" = false.
Proof. split; reflexivity. Qed.

(** ** More on the stability gate *)

Section GateMore.

Variable env : Env.
Variable file_path : string.

Lemma wait_loop_more n m : ∀ last_size w w',
  wait_loop env n file_path last_size w = (true, w') →
  wait_loop env (n + m) file_path last_size w = (true, w').
Proof.
  induction n as [|n IH]; intros last_size w w'; simpl; [done|].
  destruct (probe_at env file_path (clock w)) as [| |current_size].
  - apply IH.
  - done.
  - destruct ((current_size =? last_size) && (0 <? current_size));
      [done | apply IH].
Qed.

Lemma wait_loop_full n : ∀ last_size w,
  (∀ i, (i < n)%nat →
     probe_at env file_path (clock w + 500 * Z.of_nat i) ≠ Vanished) →
  fst (wait_loop env n file_path last_size w) = false →
  clock (snd (wait_loop env n file_path last_size w))
  = clock w + 500 * Z.of_nat n
  ∧ trace (snd (wait_loop env n file_path last_size w))
    = repeat (Slept 500) n ++ trace w.
Proof.
  induction n as [|n IH]; intros last_size w Hv Hf.
  { simpl. split; [lia | done]. }
  assert (probe_at env file_path (clock w) ≠ Vanished) as H0.
  { specialize (Hv O ltac:(lia)). by rewrite Z.mul_0_r, Z.add_0_r in Hv. }
  assert (∀ last,
    fst (wait_loop env n file_path last (sleep 500 w)) = false →
    clock (snd (wait_loop env n file_path last (sleep 500 w)))
    = clock w + 500 * Z.of_nat (S n)
    ∧ trace (snd (wait_loop env n file_path last (sleep 500 w)))
      = repeat (Slept 500) (S n) ++ trace w) as Hrec.
  { intros last Hl. destruct (IH last (sleep 500 w)) as [Hc Ht]; [|done|].
    - intros i Hi. specialize (Hv (S i) ltac:(lia)).
      replace (clock (sleep 500 w) + 500 * Z.of_nat i)
        with (clock w + 500 * Z.of_nat (S i)); [done | simpl; lia].
    - split; [rewrite Hc; simpl; lia|].
      rewrite Ht. simpl. by rewrite repeat_shift. }
  simpl in Hf |- *.
  destruct (probe_at env file_path (clock w)) as [| |current_size].
  - by apply Hrec.
  - done.
  - destruct ((current_size =? last_size) && (0 <? current_size));
      [done | by apply Hrec].
Qed.

Lemma wait_loop_first_poll n w :
  fst (wait_loop env n file_path (-1) w) = true →
  clock w + 500 ≤ clock (snd (wait_loop env n file_path (-1) w)).
Proof.
  destruct n as [|n]; simpl; [done|].
  assert (∀ last,
    clock w + 500
    ≤ clock (snd (wait_loop env n file_path last (sleep 500 w)))) as Hrec.
  { intros last.
    destruct (wait_loop_frame env file_path n last (sleep 500 w))
      as (k & _ & _ & Hc & _). rewrite Hc. simpl. lia. }
  destruct (probe_at env file_path (clock w)) as [| |current_size].
  - intros _. apply Hrec.
  - done.
  - destruct (Z.eqb_spec current_size (-1)) as [->|]; simpl.
    + intros _. apply Hrec.
    + intros _. apply Hrec.
Qed.

End GateMore.

Lemma wait_until_file_ready_full env file_path timeout w :
  0 ≤ timeout →
  (∀ i, (i < Z.to_nat (timeout * 2))%nat →
     probe_at env file_path (clock w + 500 * Z.of_nat i) ≠ Vanished) →
  fst (wait_until_file_ready env file_path timeout w) = false →
  clock (snd (wait_until_file_ready env file_path timeout w))
  = clock w + 1000 * timeout
  ∧ trace (snd (wait_until_file_ready env file_path timeout w))
    = repeat (Slept 500) (Z.to_nat (timeout * 2)) ++ trace w.
Proof.
  intros Ht Hv Hr.
  destruct (wait_loop_full env file_path (Z.to_nat (timeout * 2)) (-1) w Hv Hr)
    as [Hc Htr].
  split; [|exact Htr]. unfold wait_until_file_ready. rewrite Hc. lia.
Qed.

(** X10.  The gate never answers ready on its first poll: a ready
    answer comes at least half a second after the call.  With a timeout
    of zero or less it answers not ready at once, without polling or
    sleeping.  In every case it only sleeps: the disk and the processed
    set are as they were. *)
Theorem gate_needs_two_polls (env : Env) (file_path : string) (timeout : Z)
    (w : World) :
  let r := wait_until_file_ready env file_path timeout w in
  (fst r = true → clock w + 500 ≤ clock (snd r) ∧ 1 ≤ timeout)
  ∧ (timeout ≤ 0 → r = (false, w))
  ∧ fs (snd r) = fs w
  ∧ processed_files (snd r) = processed_files w.
Proof.
  intros r. split_and!.
  - intros Hr. split; [by apply wait_loop_first_poll|].
    unfold r, wait_until_file_ready in Hr.
    destruct (Z.to_nat (timeout * 2)) eqn:E; [done | lia].
  - intros Ht. unfold r, wait_until_file_ready.
    by replace (Z.to_nat (timeout * 2)) with O by lia.
  - apply wait_until_file_ready_frame.
  - apply wait_until_file_ready_frame.
Qed.

Lemma gate_needs_two_polls_witness :
  clock Sample.w0 + 500
  ≤ clock (snd (wait_until_file_ready Sample.quiet "C:\in\a.pdf" 10 Sample.w0)).
Proof.
  destruct (gate_needs_two_polls Sample.quiet "C:\in\a.pdf" 10 Sample.w0)
    as [H _].
  destruct H as [H _]; [reflexivity | exact H].
Defined.

(** X11.  When the gate gives up and no [stat()] has raised, it has
    used its whole budget: [timeout * 2] sleeps of half a second, so it
    returns exactly [timeout] seconds after the call. *)
Theorem gate_timeout_takes_full_time (env : Env) (file_path : string)
    (timeout : Z) (w : World) :
  0 ≤ timeout →
  (∀ i, (i < Z.to_nat (timeout * 2))%nat →
     probe_at env file_path (clock w + 500 * Z.of_nat i) ≠ Vanished) →
  let r := wait_until_file_ready env file_path timeout w in
  fst r = false →
  clock (snd r) = clock w + 1000 * timeout
  ∧ trace (snd r) = repeat (Slept 500) (Z.to_nat (timeout * 2)) ++ trace w.
Proof.
  intros Ht Hv r Hr. by apply wait_until_file_ready_full.
Qed.

Lemma gate_timeout_takes_full_time_witness :
  clock (snd (wait_until_file_ready Sample.growing "C:\in\a.pdf" 10 Sample.w0))
  = clock Sample.w0 + 1000 * 10.
Proof.
  destruct (gate_timeout_takes_full_time Sample.growing "C:\in\a.pdf" 10
              Sample.w0) as [H _].
  - lia.
  - intros i Hi. discriminate.
  - reflexivity.
  - exact H.
Defined.

(** X12.  A longer timeout never changes a ready answer: when the gate
    answers ready within [timeout], it gives the same answer at the
    same moment with any larger timeout. *)
Theorem gate_ready_is_stable_in_timeout (env : Env) (file_path : string)
    (timeout timeout' : Z) (w : World) :
  timeout ≤ timeout' →
  fst (wait_until_file_ready env file_path timeout w) = true →
  wait_until_file_ready env file_path timeout' w
  = wait_until_file_ready env file_path timeout w.
Proof.
  intros Hle Hr. unfold wait_until_file_ready in *.
  replace (Z.to_nat (timeout' * 2))
    with (Z.to_nat (timeout * 2)
          + (Z.to_nat (timeout' * 2) - Z.to_nat (timeout * 2)))%nat by lia.
  destruct (wait_loop env (Z.to_nat (timeout * 2)) file_path (-1) w)
    as [b w'] eqn:E.
  simpl in Hr. subst b. by apply wait_loop_more.
Qed.

Lemma gate_ready_is_stable_in_timeout_witness :
  wait_until_file_ready Sample.quiet "C:\in\a.pdf" 60 Sample.w0
  = wait_until_file_ready Sample.quiet "C:\in\a.pdf" 10 Sample.w0.
Proof.
  apply gate_ready_is_stable_in_timeout; [lia | reflexivity].
Defined.

(** ** More on the handler *)

Section HandlerMore.

Variable env : Env.

Lemma should_process_handler h file_path w :
  let r := _should_process env h file_path w in
  letterhead_path (snd r) = letterhead_path h
  ∧ start_time (snd r) = start_time h
  ∧ (last_processed (snd r) = last_processed h
     ∨ (fst r = true
        ∧ last_processed (snd r)
          = <[resolve env file_path:=clock w]> (last_processed h))).
Proof.
  unfold _should_process.
  destruct (mtime_at env file_path (clock w)) as [mtime|]; [|by auto].
  destruct (mtime <? start_time h); [by auto|].
  destruct (_ <? DEBOUNCE_SECONDS); simpl; auto.
Qed.

Lemma process_event_handler h event w :
  let r := _process_event env h event w in
  letterhead_path (fst r) = letterhead_path h
  ∧ start_time (fst r) = start_time h
  ∧ (last_processed (fst r) = last_processed h
     ∨ last_processed (fst r)
       = <[resolve env (src_path event):=clock w]> (last_processed h)).
Proof.
  unfold _process_event.
  destruct (filtered_out event); [by auto|].
  destruct (should_process_handler h (src_path event) w) as (Hl & Hs & Ht).
  destruct (_should_process env h (src_path event) w) as [[|] h1];
    simpl in *; split_and!; auto; destruct Ht as [?|[_ ?]]; auto.
Qed.

Lemma process_event_records h event w :
  filtered_out event = false →
  fst (_should_process env h (src_path event) w) = true →
  last_processed (fst (_process_event env h event w))
    !! resolve env (src_path event) = Some (clock w).
Proof.
  intros Hf Hacc. unfold _process_event. rewrite Hf.
  destruct (_should_process env h (src_path event) w) as [a h1] eqn:Hd.
  simpl in Hacc. subst a.
  apply should_process_accept in Hd as [-> _]. simpl.
  apply lookup_insert_eq.
Qed.

Lemma merge_letterhead_clock invoice_path letterhead_path output_path retries w :
  clock w
  ≤ clock (merge_letterhead env invoice_path letterhead_path output_path
             retries w)
  ≤ clock w + 1500 * Z.of_nat retries.
Proof.
  destruct (merge_letterhead_time env invoice_path letterhead_path
              output_path retries w) as (k & Hk & -> & _). lia.
Qed.

Lemma process_event_clock h event w :
  clock w ≤ clock (snd (_process_event env h event w)) ≤ clock w + 14500.
Proof.
  unfold _process_event.
  destruct (filtered_out event); [simpl; lia|].
  destruct (_should_process env h (src_path event) w) as [[|] h1];
    simpl; [|lia].
  unfold _handle_pdf, wait_until_file_ready.
  destruct (wait_loop_frame env (src_path event) (Z.to_nat (10 * 2)) (-1) w)
    as (k & Hk & _ & Hc & _).
  destruct (wait_loop env (Z.to_nat (10 * 2)) (src_path event) (-1) w)
    as [[|] w1]; simpl in Hc.
  - pose proof (merge_letterhead_clock (src_path event) (letterhead_path h1)
                  None 3 w1) as Hm.
    change (Z.to_nat (10 * 2)) with 20%nat in Hk. lia.
  - simpl. change (Z.to_nat (10 * 2)) with 20%nat in Hk. lia.
Qed.

Lemma handle_events_cons event events h w :
  handle_events env (event :: events) h w
  = handle_events env events (fst (_process_event env h event w))
      (snd (_process_event env h event w)).
Proof.
  unfold handle_events. simpl. by destruct (_process_event env h event w).
Qed.

Lemma handle_events_other_key events key : ∀ h w,
  (∀ event, event ∈ events → resolve env (src_path event) ≠ key) →
  last_processed (fst (handle_events env events h w)) !! key
  = last_processed h !! key.
Proof.
  induction events as [|event events IH]; intros h w Hk; [done|].
  rewrite handle_events_cons, IH.
  - destruct (process_event_handler h event w) as (_ & _ & [->| ->]); [done|].
    apply lookup_insert_ne, Hk. left.
  - intros e He. apply Hk. by right.
Qed.

Lemma handle_events_span events : ∀ h w,
  let r := handle_events env events h w in
  letterhead_path (fst r) = letterhead_path h
  ∧ start_time (fst r) = start_time h
  ∧ clock w ≤ clock (snd r)
  ∧ (∀ key t, last_processed h !! key = Some t →
       is_Some (last_processed (fst r) !! key))
  ∧ (∀ key t, last_processed (fst r) !! key = Some t →
       last_processed h !! key = Some t ∨ clock w ≤ t ≤ clock (snd r)).
Proof.
  induction events as [|event events IH]; intros h w.
  { simpl. split_and!; eauto; lia. }
  rewrite handle_events_cons.
  destruct (process_event_handler h event w) as (Hl & Hs & Ht).
  pose proof (process_event_clock h event w) as Hc.
  destruct (IH (fst (_process_event env h event w))
              (snd (_process_event env h event w)))
    as (Hl' & Hs' & Hc' & Hkeep & Hnew).
  cbv zeta. split_and!; try congruence; try lia.
  - intros key t Hkey.
    destruct Ht as [Ht|Ht].
    + apply (Hkeep key t). by rewrite Ht.
    + destruct (decide (resolve env (src_path event) = key)) as [<-|Hne].
      * apply (Hkeep _ (clock w)). rewrite Ht. apply lookup_insert_eq.
      * apply (Hkeep key t). rewrite Ht. by rewrite lookup_insert_ne.
  - intros key t Hkey. destruct (Hnew key t Hkey) as [Hold|Hspan]; [|right; lia].
    destruct Ht as [Ht|Ht]; rewrite Ht in Hold; [by left|].
    destruct (decide (resolve env (src_path event) = key)) as [<-|Hne].
    + rewrite lookup_insert_eq in Hold. simplify_eq. right. lia.
    + rewrite lookup_insert_ne in Hold by done. by left.
Qed.

End HandlerMore.

(** X13.  The debounce window belongs to the path: events on other
    files, however many and however long they take, neither end nor
    extend it.  After an accepted event on a path, an event on the same
    path handled less than [DEBOUNCE_SECONDS] after it is rejected and
    changes nothing, whatever events on files with other resolved paths
    came between. *)
Theorem debounce_is_per_path (env : Env) (h : InvoiceHandler)
    (first again : FsEvent) (others : list FsEvent) (w : World) :
  src_path again = src_path first →
  filtered_out first = false →
  fst (_should_process env h (src_path first) w) = true →
  (∀ event, event ∈ others →
     resolve env (src_path event) ≠ resolve env (src_path first)) →
  let r1 := _process_event env h first w in
  let r2 := handle_events env others (fst r1) (snd r1) in
  clock (snd r2) - clock w < DEBOUNCE_SECONDS →
  _process_event env (fst r2) again (snd r2) = r2.
Proof.
  intros Hsame Hfilter Hacc Hothers r1 r2 Hwin.
  assert (last_processed (fst r1) !! resolve env (src_path first)
          = Some (clock w)) as H1.
  { by apply process_event_records. }
  assert (last_processed (fst r2) !! resolve env (src_path first)
          = Some (clock w)) as H2.
  { unfold r2. by rewrite handle_events_other_key. }
  unfold _process_event. destruct (filtered_out again); [by destruct r2|].
  rewrite Hsame.
  rewrite (should_process_debounced env (fst r2) (src_path first) (snd r2)
             (clock w) H2 Hwin).
  by destruct r2.
Qed.

Lemma debounce_is_per_path_witness :
  let h := new_handler "C:\lh.pdf" Sample.w0 in
  let other := {| is_directory := false; src_path := "C:\in\b.pdf" |} in
  let r1 := _process_event Sample.quiet h Sample.a_pdf Sample.w0 in
  let r2 := handle_events Sample.quiet [other; other] (fst r1) (snd r1) in
  _process_event Sample.quiet (fst r2) Sample.a_pdf (snd r2) = r2.
Proof.
  intros h other r1 r2.
  apply (debounce_is_per_path Sample.quiet h Sample.a_pdf Sample.a_pdf
           [other; other] Sample.w0).
  - reflexivity.
  - reflexivity.
  - reflexivity.
  - intros event [->|[->|H]%elem_of_cons]%elem_of_cons.
    + discriminate.
    + discriminate.
    + by apply elem_of_nil in H.
  - vm_compute. reflexivity.
Defined.

(** X14.  During a session the handler keeps its letterhead and its
    start time, and the debounce table only grows: no entry is ever
    removed, and every timestamp that appears in it is a reading of the
    clock taken while the events were handled. *)
Theorem debounce_table_only_grows (env : Env) (events : list FsEvent)
    (h : InvoiceHandler) (w : World) :
  let r := handle_events env events h w in
  letterhead_path (fst r) = letterhead_path h
  ∧ start_time (fst r) = start_time h
  ∧ dom (last_processed h) ⊆ dom (last_processed (fst r))
  ∧ (∀ key t, last_processed (fst r) !! key = Some t →
       last_processed h !! key = Some t ∨ clock w ≤ t ≤ clock (snd r)).
Proof.
  intros r.
  destruct (handle_events_span env events h w) as (Hl & Hs & _ & Hkeep & Hnew).
  split_and!; auto.
  intros key [t Ht]%elem_of_dom. apply elem_of_dom. by eapply Hkeep.
Qed.

Lemma debounce_table_only_grows_witness :
  let h := new_handler "C:\lh.pdf" Sample.w0 in
  dom (last_processed h)
  ⊆ dom (last_processed
           (fst (handle_events Sample.quiet [Sample.a_pdf] h Sample.w0))).
Proof.
  intros h.
  destruct (debounce_table_only_grows Sample.quiet [Sample.a_pdf] h Sample.w0)
    as (_ & _ & H & _).
  exact H.
Defined.

Lemma sleeps_repeat_slept k tr :
  sleeps (repeat (Slept 500) k ++ tr) = repeat 500 k ++ sleeps tr.
Proof. induction k as [|k IH]; simpl; [done | by rewrite IH]. Qed.

(** A ready answer comes before the last sleep of the budget. *)
Lemma wait_loop_ready_sleeps env file_path n : ∀ last_size w,
  fst (wait_loop env n file_path last_size w) = true →
  ∃ k, (k < n)%nat
    ∧ trace (snd (wait_loop env n file_path last_size w))
      = repeat (Slept 500) k ++ trace w.
Proof.
  induction n as [|n IH]; intros last_size w; simpl; [done|].
  assert (∀ last,
    fst (wait_loop env n file_path last (sleep 500 w)) = true →
    ∃ k, (k < S n)%nat
      ∧ trace (snd (wait_loop env n file_path last (sleep 500 w)))
        = repeat (Slept 500) k ++ trace w) as Hrec.
  { intros last Hl. destruct (IH last (sleep 500 w) Hl) as (k & Hk & Ht).
    exists (S k). split; [lia|]. rewrite Ht. simpl. by rewrite repeat_shift. }
  destruct (probe_at env file_path (clock w)) as [| |current_size].
  - apply Hrec.
  - done.
  - destruct ((current_size =? last_size) && (0 <? current_size)).
    + intros _. exists O. split; [lia | done].
    + apply Hrec.
Qed.

(** X15.  What handling one event sleeps: at most 20 times half a
    second in the gate, then at most 3 times 1.5 s in the write loop,
    and at most 19 times in the gate when the merge follows - 14
    seconds of sleep at most.  An event that is filtered out or
    rejected by [_should_process] does not sleep and changes nothing. *)
Theorem event_sleeps_are_bounded (env : Env) (h : InvoiceHandler)
    (event : FsEvent) (w : World) :
  let r := _process_event env h event w in
  (∃ k m,
     sleeps (trace (snd r)) = repeat 1500 m ++ repeat 500 k ++ sleeps (trace w)
     ∧ (k ≤ 20)%nat ∧ (m ≤ 3)%nat ∧ (m ≠ O → k ≤ 19)%nat
     ∧ 500 * Z.of_nat k + 1500 * Z.of_nat m ≤ 14000)
  ∧ (filtered_out event = true
     ∨ fst (_should_process env h (src_path event) w) = false →
     r = (h, w)).
Proof.
  intros r.
  assert (∃ k m,
     sleeps (trace w) = repeat 1500 m ++ repeat 500 k ++ sleeps (trace w)
     ∧ (k ≤ 20)%nat ∧ (m ≤ 3)%nat ∧ (m ≠ O → k ≤ 19)%nat
     ∧ 500 * Z.of_nat k + 1500 * Z.of_nat m ≤ 14000) as H0.
  { exists O, O. simpl. split_and!; auto; lia. }
  split.
  - unfold r, _process_event.
    destruct (filtered_out event); [exact H0|].
    destruct (_should_process env h (src_path event) w) as [[|] h1];
      simpl; [|exact H0].
    unfold _handle_pdf, wait_until_file_ready.
    assert (Z.to_nat (10 * 2) = 20%nat) as Hn by reflexivity.
    revert Hn. generalize (Z.to_nat (10 * 2)). intros n Hn.
    destruct (wait_loop_frame env (src_path event) n (-1) w)
      as (k & Hk & Ht & _).
    pose proof (wait_loop_ready_sleeps env (src_path event) n (-1) w)
      as Hready.
    destruct (wait_loop env n (src_path event) (-1) w) as [[|] w1];
      simpl in Ht, Hready.
    + destruct (Hready eq_refl) as (k' & Hk' & Ht').
      destruct (merge_letterhead_time env (src_path event)
                  (letterhead_path h1) None 3 w1) as (m & Hm & _ & Hs).
      exists k', m. rewrite Hs, Ht', sleeps_repeat_slept.
      split_and!; auto; lia.
    + exists k, O. simpl. rewrite Ht, sleeps_repeat_slept.
      split_and!; auto; lia.
  - unfold r, _process_event. intros [->|Hrej]; [done|].
    destruct (filtered_out event); [done|].
    destruct (_should_process env h (src_path event) w) as [a h1] eqn:Hd.
    simpl in Hrej. subst a. by apply should_process_reject in Hd as ->.
Qed.

Lemma event_sleeps_are_bounded_witness :
  let h := new_handler "C:\lh.pdf" Sample.w0 in
  let r1 := _process_event Sample.quiet h Sample.a_pdf Sample.w0 in
  sleeps (trace (snd r1)) = [500]
  ∧ _process_event Sample.quiet (fst r1) Sample.a_pdf (snd r1)
    = (fst r1, snd r1).
Proof.
  intros h r1. split; [reflexivity|].
  destruct (event_sleeps_are_bounded Sample.quiet (fst r1) Sample.a_pdf
              (snd r1)) as [_ H].
  apply H. right. vm_compute. reflexivity.
Defined.

(** X16.  An event has an effect only when it passes the filter, the
    file exists and was modified at or after the start of the session,
    and at least [DEBOUNCE_SECONDS] have passed since the time recorded
    for its resolved path - or since time 0 when none is recorded. *)
Theorem event_effect_conditions (env : Env) (h : InvoiceHandler)
    (event : FsEvent) (w : World) :
  _process_event env h event w ≠ (h, w) →
  filtered_out event = false
  ∧ ∃ mtime,
      mtime_at env (src_path event) (clock w) = Some mtime
      ∧ start_time h ≤ mtime
      ∧ DEBOUNCE_SECONDS
        ≤ clock w
          - default 0 (last_processed h !! resolve env (src_path event)).
Proof.
  unfold _process_event, _should_process. intros H.
  destruct (filtered_out event); [done|]. split; [done|].
  destruct (mtime_at env (src_path event) (clock w)) as [mtime|]; [|done].
  exists mtime. split; [done|].
  destruct (Z.ltb_spec mtime (start_time h)); [done|].
  split; [done|].
  destruct (Z.ltb_spec
              (clock w - default 0
                 (last_processed h !! resolve env (src_path event)))
              DEBOUNCE_SECONDS); [done | lia].
Qed.

Lemma event_effect_conditions_witness :
  filtered_out Sample.a_pdf = false.
Proof.
  destruct (event_effect_conditions Sample.quiet
              (new_handler "C:\lh.pdf" Sample.w0) Sample.a_pdf Sample.w0)
    as [H _].
  - vm_compute. discriminate.
  - exact H.
Defined.


(** ** More on the application *)

Section AppMore.

Variable env : Env.

Lemma do_toggle_configured s :
  watching_configured s → watching_configured (do_toggle s).
Proof.
  intros Hs. unfold do_toggle, toggle_watch.
  destruct (observer (app s)) as [h|] eqn:Hobs.
  - simpl. intros h' Hh'. done.
  - destruct (bool_decide (app_letterhead (app s) = "")) eqn:E1; simpl.
    { intros h' Hh'. simpl in Hh'. congruence. }
    destruct (bool_decide (watch_folder (app s) = "")) eqn:E2; simpl.
    { intros h' Hh'. simpl in Hh'. congruence. }
    apply bool_decide_eq_false in E1. apply bool_decide_eq_false in E2.
    intros h' [= <-]. simpl. done.
Qed.

Lemma deliver_configured event s :
  watching_configured s → watching_configured (deliver env event s).
Proof.
  intros Hs. unfold deliver.
  destruct (observer (app s)) as [h|] eqn:Hobs; [|done].
  destruct (process_event_handler env h event (world s)) as (Hl & _).
  destruct (_process_event env h event (world s)) as [h1 w1].
  intros h' [= <-]. simpl in *. rewrite Hl. by apply Hs.
Qed.

Lemma step_configured s a :
  watching_configured s → watching_configured (step env s a).
Proof.
  intros Hs.
  destruct a as [dt|p f|event|event| |p|p|i o|files folder]; simpl;
    try exact Hs.
  - by apply deliver_configured.
  - by apply deliver_configured.
  - by apply do_toggle_configured.
  - unfold select_letterhead. case_bool_decide as Hp; [done|].
    intros h Hh. simpl in *. destruct (Hs h Hh) as (? & _ & ?). done.
  - unfold select_folder. case_bool_decide as Hp; [done|].
    destruct (observer (app s)) as [h|] eqn:Hobs.
    + do 2 apply do_toggle_configured.
      intros h' Hh'. simpl in *. simplify_eq.
      destruct (Hs h' Hobs) as (? & ? & _). done.
    + intros h' Hh'. simpl in Hh'. congruence.
Qed.

Lemma run_configured actions : ∀ s,
  watching_configured s → watching_configured (run env actions s).
Proof.
  induction actions as [|a actions IH]; intros s Hs; [done|].
  simpl. apply IH. by apply step_configured.
Qed.

Lemma boot_configured letterhead folder now disk :
  watching_configured (boot letterhead folder now disk).
Proof.
  unfold boot.
  match goal with
  | |- context [do_toggle ?s0] =>
      assert (watching_configured s0) as H0 by (by intros h Hh);
      destruct (_ && _); [by apply do_toggle_configured | exact H0]
  end.
Qed.

Lemma name_nonempty_with_suffix f s :
  Paths.name f ≠ "" → is_Some (Paths.with_suffix f s).
Proof.
  unfold Paths.name, Paths.with_suffix. intros H.
  destruct (Paths.name_chars (Paths.chars f)) as [|c nm]; [done | eauto].
Qed.

Lemma batch_loop_marks a folder files : ∀ w,
  (∀ f, f ∈ files → Paths.name f ≠ "") →
  ∀ f, f ∈ files →
    Paths.endswith (Paths.name f) ".merged.pdf" = true
    ∨ f ∈ processed_files (batch_loop env a folder files w).
Proof.
  induction files as [|f0 files IH]; intros w Hnames f Hf.
  { by apply elem_of_nil in Hf. }
  simpl. unfold batch_out_path.
  destruct (name_nonempty_with_suffix f0 ".merged.pdf") as [q ->];
    [apply Hnames; left|].
  apply elem_of_cons in Hf as [->|Hf].
  - destruct (merge_letterhead_marks env f0 (app_letterhead a)
                (Some (Paths.joinpath folder (Paths.name q))) 3 w)
      as [?|Hin]; [by left | right].
    by apply (batch_loop_advances env a folder files).
  - apply IH; [|done]. intros f' Hf'. apply Hnames. by right.
Qed.

End AppMore.

(** X17.  Whatever happens from the start of the process on, an
    observer never runs without configuration: while the application is
    watching, a letterhead and a folder are set, and the handler has a
    letterhead to merge with. *)
Theorem watching_implies_configured (env : Env) (letterhead folder : string)
    (now : Z) (disk : gmap string file) (actions : list action)
    (h : InvoiceHandler) :
  let s := run env actions (boot letterhead folder now disk) in
  observer (app s) = Some h →
  letterhead_path h ≠ "" ∧ app_letterhead (app s) ≠ ""
  ∧ watch_folder (app s) ≠ "".
Proof.
  intros s. apply (run_configured env actions), boot_configured.
Qed.

Lemma watching_implies_configured_witness :
  let s := run Sample.quiet [Created Sample.a_pdf; SelectFolder "D:\new"]
             Sample.watching in
  app_letterhead (app s) ≠ "" ∧ watch_folder (app s) ≠ "".
Proof.
  intros s.
  destruct (watching_implies_configured Sample.quiet "C:\lh.pdf" "C:\in"
              100000 Sample.disk
              [Created Sample.a_pdf; SelectFolder "D:\new"]
              {| letterhead_path := "C:\lh.pdf"; last_processed := ∅;
                 start_time := 100500 |}) as (_ & H1 & H2).
  - vm_compute. reflexivity.
  - split; [exact H1 | exact H2].
Defined.

(** X19.  Choosing another letterhead does not reach a running
    session: its handler, and so what an event does, are the same as
    without the choice - the watcher keeps merging with the letterhead
    it was started with - while a manual merge uses the new
    letterhead. *)
Theorem select_letterhead_spares_session (env : Env) (s : System)
    (p : string) :
  let s' := step env s (SelectLetterhead p) in
  observer (app s') = observer (app s)
  ∧ (∀ event,
       world (step env s' (Created event)) = world (step env s (Created event))
       ∧ observer (app (step env s' (Created event)))
         = observer (app (step env s (Created event))))
  ∧ (p ≠ "" → ∀ input_pdf output_pdf,
       input_pdf ≠ "" → output_pdf ≠ "" →
       world (step env s' (ManualMerge input_pdf output_pdf))
       = merge_letterhead env input_pdf p (Some output_pdf) 3 (world s)).
Proof.
  intros s'. unfold s'. simpl. unfold select_letterhead.
  case_bool_decide as Hp.
  - split_and!; [done | done | by intros ?].
  - split_and!; [done | |].
    + intros event. unfold deliver. simpl.
      destruct (observer (app s)) as [h|] eqn:Hobs;
        [|simpl; by rewrite Hobs].
      by destruct (_process_event env h event (world s)).
    + intros _ input_pdf output_pdf Hi Ho. simpl. unfold manual_merge. simpl.
      by rewrite !bool_decide_eq_false_2.
Qed.

Lemma select_letterhead_spares_session_witness :
  world (step Sample.quiet
           (step Sample.quiet Sample.idle (SelectLetterhead "C:\lh2.pdf"))
           (ManualMerge "C:\in\a.pdf" "C:\out\a.pdf"))
  = merge_letterhead Sample.quiet "C:\in\a.pdf" "C:\lh2.pdf"
      (Some "C:\out\a.pdf") 3 (world Sample.idle).
Proof.
  destruct (select_letterhead_spares_session Sample.quiet Sample.idle
              "C:\lh2.pdf") as (_ & _ & H).
  apply H; discriminate.
Defined.

(** X20.  A batch goes through all the files selected: a file whose
    merge fails does not end the batch.  With a letterhead and an
    output folder chosen and no selected path with an empty name, every
    selected file is, after the batch, in the processed set - merged or
    failed - unless its name ends with [.merged.pdf]. *)
Theorem batch_attempts_every_file (env : Env) (a : PDFMergerApp)
    (files : list string) (output_folder : string) (w : World) :
  app_letterhead a ≠ "" →
  output_folder ≠ "" →
  (∀ f, f ∈ files → Paths.name f ≠ "") →
  ∀ f, f ∈ files →
    Paths.endswith (Paths.name f) ".merged.pdf" = true
    ∨ f ∈ processed_files (batch_merge env a files output_folder w).
Proof.
  intros Ha Hfolder Hnames f Hf. unfold batch_merge.
  rewrite bool_decide_eq_false_2 by done.
  case_bool_decide as Hfiles; [subst; by apply elem_of_nil in Hf|].
  rewrite bool_decide_eq_false_2 by done.
  by apply batch_loop_marks.
Qed.

Lemma batch_attempts_every_file_witness :
  "C:\in\a.pdf"
  ∈ processed_files
      (batch_merge Sample.quiet (app Sample.idle)
         ["C:\in\nothing.pdf"; "C:\in\a.pdf"] "C:\out" Sample.w0).
Proof.
  destruct (batch_attempts_every_file Sample.quiet (app Sample.idle)
              ["C:\in\nothing.pdf"; "C:\in\a.pdf"] "C:\out" Sample.w0)
    with (f := "C:\in\a.pdf") as [H|H].
  - discriminate.
  - discriminate.
  - intros f [->|[->|H]%elem_of_cons]%elem_of_cons.
    + discriminate.
    + discriminate.
    + by apply elem_of_nil in H.
  - right. left.
  - discriminate.
  - exact H.
Defined.

(** X21.  A stability timeout uses up the debounce window: the gate
    sleeps for as long as the window lasts.  When an accepted event
    ends in "never stabilized" with no [stat()] having raised, disk and
    processed set are as they were, and an event on the same path
    handled after the first has returned - a millisecond later or more
    - is accepted by the debounce rule, provided the file still exists
    and was modified since the session started. *)
Theorem retry_after_stability_timeout (env : Env) (h : InvoiceHandler)
    (event : FsEvent) (w : World) (dt mtime : Z) :
  filtered_out event = false →
  fst (_should_process env h (src_path event) w) = true →
  (∀ i, (i < Z.to_nat (10 * 2))%nat →
     probe_at env (src_path event) (clock w + 500 * Z.of_nat i) ≠ Vanished) →
  fst (wait_until_file_ready env (src_path event) 10 w) = false →
  1 ≤ dt →
  let r := _process_event env h event w in
  let later := elapse dt (snd r) in
  mtime_at env (src_path event) (clock later) = Some mtime →
  start_time h ≤ mtime →
  clock (snd r) = clock w + 10000
  ∧ processed_files (snd r) = processed_files w
  ∧ fs (snd r) = fs w
  ∧ fst (_should_process env (fst r) (src_path event) later) = true.
Proof.
  intros Hfilter Hacc Hprobes Hgate Hdt r later Hmtime Hstart.
  destruct (wait_until_file_ready_full env (src_path event) 10 w
              ltac:(lia) Hprobes Hgate) as (Hc & _).
  destruct (wait_until_file_ready_frame env (src_path event) 10 w)
    as (Hp & Hf & _).
  assert (r = (snd (_should_process env h (src_path event) w),
               log_message
                 ("[!] File never stabilized: "
                  +:+ Paths.name (src_path event))
                 (snd (wait_until_file_ready env (src_path event) 10 w))))
    as Hr.
  { unfold r, _process_event. rewrite Hfilter.
    destruct (_should_process env h (src_path event) w) as [a h1].
    simpl in Hacc. subst a. simpl. unfold _handle_pdf.
    by destruct (wait_until_file_ready env (src_path event) 10 w)
      as [[|] w1]. }
  destruct (_should_process env h (src_path event) w) as [a h1] eqn:Hd.
  simpl in Hacc. subst a. apply should_process_accept in Hd as [Hh1 _].
  simpl in Hr.
  clearbody r. subst r. simpl in later.
  assert (clock later = clock w + 10000 + dt) as Hlater.
  { unfold later. simpl. lia. }
  simpl. split_and!; try done; try lia.
  unfold _should_process. rewrite Hmtime, Hh1. simpl.
  destruct (Z.ltb_spec mtime (start_time h)); [lia|].
  rewrite lookup_insert_eq. simpl.
  match goal with
  | |- context [?x <? DEBOUNCE_SECONDS] =>
      destruct (Z.ltb_spec x DEBOUNCE_SECONDS); [|reflexivity]
  end.
  unfold DEBOUNCE_SECONDS in *. lia.
Qed.

Lemma retry_after_stability_timeout_witness :
  let h := new_handler "C:\lh.pdf" Sample.w0 in
  let r := _process_event Sample.growing h Sample.a_pdf Sample.w0 in
  fst (_should_process Sample.growing (fst r) "C:\in\a.pdf"
         (elapse 1 (snd r))) = true.
Proof.
  intros h r.
  destruct (retry_after_stability_timeout Sample.growing h Sample.a_pdf
              Sample.w0 1 110001) as (_ & _ & _ & H).
  - reflexivity.
  - reflexivity.
  - intros i Hi. discriminate.
  - reflexivity.
  - lia.
  - reflexivity.
  - vm_compute. discriminate.
  - exact H.
Defined.

(** ** The update check *)

Lemma lstrip_v_head s c s' : lstrip_v s = String c s' → c ≠ "v"%char.
Proof.
  induction s as [|d s IH]; simpl; [done|].
  case_bool_decide as Hd; [exact IH|]. intros [= <- <-]. done.
Qed.

Lemma find_installer_first l url :
  find_installer l = Installer url →
  ∃ before asset after nm,
    l = before ++ asset :: after
    ∧ asset_name asset = Some nm
    ∧ Paths.endswith nm ".exe" = true
    ∧ browser_download_url asset = Some url
    ∧ ∀ b, b ∈ before →
        ∃ bn, asset_name b = Some bn ∧ Paths.endswith bn ".exe" = false.
Proof.
  induction l as [|a l IH]; simpl; [done|].
  destruct (asset_name a) as [nm|] eqn:Hn; [|done].
  destruct (Paths.endswith nm ".exe") eqn:He.
  - destruct (browser_download_url a) as [u|] eqn:Hu; [|done].
    intros [= <-]. exists [], a, l, nm. split_and!; auto.
    by intros b ?%elem_of_nil.
  - intros (before & asset & after & nm' & -> & ? & ? & ? & Hb)%IH.
    exists (a :: before), asset, after, nm'. split_and!; auto.
    intros b [->|Hin]%elem_of_cons; [eauto | by apply Hb].
Qed.

(** X22.  An update is offered only by a frozen build whose repository
    is set, only when the feed answered with a tag whose version is
    newer than the running one, and only for an installer: the URL
    offered is that of the first asset whose name ends with [.exe], all
    assets before it having names that do not; the version offered is
    the tag without its leading "v"s. *)
Theorem update_offer_conditions (frozen : bool) (repo current : string)
    (newer : string → string → option bool) (response : option Release)
    (version url : string) :
  check_for_updates frozen repo current newer response = Some (version, url) →
  frozen = true
  ∧ repo ≠ UNSET_REPO
  ∧ newer version current = Some true
  ∧ (∀ c rest, version = String c rest → c ≠ "v"%char)
  ∧ ∃ release tag l before asset after nm,
      response = Some release
      ∧ tag_name release = Some tag
      ∧ version = lstrip_v tag
      ∧ assets release = Some l
      ∧ l = before ++ asset :: after
      ∧ asset_name asset = Some nm
      ∧ Paths.endswith nm ".exe" = true
      ∧ browser_download_url asset = Some url
      ∧ ∀ b, b ∈ before →
          ∃ bn, asset_name b = Some bn ∧ Paths.endswith bn ".exe" = false.
Proof.
  unfold check_for_updates.
  destruct frozen; [|done]. simpl.
  case_bool_decide as Hrepo; [done|].
  destruct response as [release|]; [|done].
  destruct (tag_name release) as [tag|] eqn:Htag; [|done].
  destruct (newer (lstrip_v tag) current) as [[|]|] eqn:Hnewer; try done.
  destruct (find_installer (default [] (assets release))) as [| |u] eqn:Hfind;
    try done.
  intros [= <- <-].
  split_and!; auto.
  { intros c rest Hv. by eapply lstrip_v_head. }
  destruct (assets release) as [l|] eqn:Hassets; [|done]. simpl in Hfind.
  destruct (find_installer_first l u Hfind)
    as (before & asset & after & nm & Hl & Hn & He & Hu & Hb).
  exists release, tag, l, before, asset, after, nm. split_and!; auto.
Qed.

Lemma update_offer_conditions_witness :
  let release :=
    {| tag_name := Some "v1.0.1";
       assets :=
         Some [ {| asset_name := Some "notes.txt";
                   browser_download_url := Some "https://example/notes" |};
                {| asset_name := Some "setup.exe";
                   browser_download_url := Some "https://example/setup" |} ]
    |} in
  let newer := λ a _ : string, Some (bool_decide (a = "1.0.1")) in
  check_for_updates true "owner/repo" "1.0.0" newer (Some release)
  = Some ("1.0.1", "https://example/setup")
  ∧ "owner/repo" ≠ UNSET_REPO.
Proof.
  intros release newer. split; [reflexivity|].
  destruct (update_offer_conditions true "owner/repo" "1.0.0" newer
              (Some release) "1.0.1" "https://example/setup")
    as (_ & H & _).
  - reflexivity.
  - exact H.
Defined.

(** ** The pipeline as a whole *)

(** X23.  What the watcher does for a new invoice: when the event
    passes the filter and the debounce rule, the gate answers ready,
    the invoice has not been processed yet, invoice and letterhead can
    be read, the letterhead has one page and nothing is locked when the
    gate returns, then after the event the invoice holds the merged
    document under its own name, it has been replaced in place exactly
    once more, it is in the processed set, its [.merged.pdf] sibling is
    gone, and "Merge Complete" has been notified. *)
Theorem watcher_merges_stable_file (env : Env) (h : InvoiceHandler)
    (event : FsEvent) (w : World) (invoice letterhead : Document)
    (temp_path : string) :
  filtered_out event = false →
  fst (_should_process env h (src_path event) w) = true →
  fst (wait_until_file_ready env (src_path event) 10 w) = true →
  src_path event ∉ processed_files w →
  fs w !! src_path event = Some (PdfFile invoice) →
  fs w !! letterhead_path h = Some (PdfFile letterhead) →
  length letterhead = 1%nat →
  Paths.with_suffix (src_path event) ".merged.pdf" = Some temp_path →
  let ready_at := clock (snd (wait_until_file_ready env (src_path event) 10 w)) in
  open_at env temp_path ready_at = IoOk →
  replace_at env temp_path (src_path event) ready_at = IoOk →
  let r := _process_event env h event w in
  fs (snd r) !! src_path event
  = Some (PdfFile (map (λ page, merge_page page (nth 0 letterhead []))
                     invoice))
  ∧ fs (snd r) !! temp_path = None
  ∧ replaced_in_place (trace (snd r))
    = src_path event :: replaced_in_place (trace w)
  ∧ processed_files (snd r) = {[src_path event]} ∪ processed_files w
  ∧ Notified "Merge Complete" ("Merged: " +:+ Paths.name (src_path event))
    ∈ trace (snd r)
  ∧ clock (snd r) = ready_at.
Proof.
  intros Hfilter Hacc Hready Hnew Hinv Hlh Hlen Htemp ready_at Hopen Hrep r.
  assert (Paths.endswith (Paths.name (src_path event)) ".merged.pdf" = false)
    as Hname.
  { destruct (Paths.endswith (Paths.name (src_path event)) ".merged.pdf")
      eqn:E; [|done].
    rewrite <- Hfilter. symmetry. destruct event as [d p].
    by apply merged_name_filtered. }
  assert (temp_path ≠ src_path event) as Hne
    by (by eapply PathFacts.temp_path_fresh).
  destruct (wait_until_file_ready_frame env (src_path event) 10 w)
    as (Hp & Hf & Hr & _).
  assert (snd r = merge_letterhead env (src_path event) (letterhead_path h)
                    None 3
                    (snd (wait_until_file_ready env (src_path event) 10 w)))
    as ->.
  { unfold r, _process_event. rewrite Hfilter.
    destruct (_should_process env h (src_path event) w) as [a h1] eqn:Hd.
    simpl in Hacc. subst a. apply should_process_accept in Hd as [-> _].
    simpl. unfold _handle_pdf. simpl.
    destruct (wait_until_file_ready env (src_path event) 10 w) as [b w1].
    simpl in Hready. by subst b. }
  subst ready_at. clear r.
  destruct (wait_until_file_ready env (src_path event) 10 w) as [b w1].
  simpl in *.
  rewrite (merge_letterhead_reaches_loop env (src_path event)
             (letterhead_path h) None 3 w1 invoice letterhead temp_path);
    try done; try congruence.
  simpl. rewrite Hopen. simpl. rewrite Hrep. unfold os_replace. simpl.
  rewrite lookup_insert_eq. simpl. split_and!.
  - apply lookup_insert_eq.
  - rewrite lookup_insert_ne by done. apply lookup_delete_eq.
  - by rewrite Hr.
  - by rewrite Hp.
  - left.
  - done.
Qed.

Lemma watcher_merges_stable_file_witness :
  let h := new_handler "C:\lh.pdf" Sample.w0 in
  let r := _process_event Sample.quiet h Sample.a_pdf Sample.w0 in
  fs (snd r) !! "C:\in\a.pdf" = Some (PdfFile Sample.merged3)
  ∧ fs (snd r) !! "C:\in\a.merged.pdf" = None.
Proof.
  intros h r.
  destruct (watcher_merges_stable_file Sample.quiet h Sample.a_pdf Sample.w0
              Sample.invoice3 [Sample.header] "C:\in\a.merged.pdf")
    as (H1 & H2 & _).
  - reflexivity.
  - reflexivity.
  - reflexivity.
  - simpl. set_solver.
  - reflexivity.
  - reflexivity.
  - reflexivity.
  - reflexivity.
  - reflexivity.
  - reflexivity.
  - split; [exact H1 | exact H2].
Defined.
